(** * rinha-backend-2024-q1: the two handlers of [main.go]

    A shallow embedding of [clientExists], [handleTransactions] and
    [handleTransactionLog].  The handlers talk to PostgreSQL through
    [dbpool]; every call on the pool is a node of a small program tree
    ([prog]), so that "what the handler asks the database and in which
    order" is a value that can be inspected, run against a store, or
    interleaved with another request. *)

From stdpp Require Import base numbers list list_numbers strings gmap sorting.
From Stdlib Require Import ZArith Lia Ascii.

Local Open Scope Z_scope.

(** ** Go values *)

(** Go's [int] on the 64-bit targets the service is built for. *)
Definition minInt64 : Z := - 2 ^ 63.
Definition maxInt64 : Z := 2 ^ 63 - 1.

(** A Go string is a sequence of bytes; [string] holds one [ascii] per byte. *)
Definition byte_of (a : ascii) : Z := Z.of_N (N_of_ascii a).

Fixpoint bytes (s : string) : list Z :=
  match s with
  | EmptyString => []
  | String a s' => byte_of a :: bytes s'
  end.

Fixpoint string_of_bytes (l : list Z) : string :=
  match l with
  | [] => EmptyString
  | b :: l' => String (ascii_of_N (Z.to_N b)) (string_of_bytes l')
  end.

(** [time.Time] values, as microseconds since the Unix epoch. *)
Definition time := Z.

(** Error values.  The handlers only ever compare an error with [nil], so the
    constructors just record where an error came from. *)
Inductive store_error : Type :=
| LimitExceeded
| NotFound
| StorageUnavailable.

Inductive error : Type :=
| ErrSyntax                         (* strconv.ErrSyntax *)
| ErrRange                          (* strconv.ErrRange *)
| ErrConvert (e : error)            (* fiber: "failed to convert: %w" *)
| ErrClienteNaoExiste               (* errors.New("Cliente não existe.") *)
| ErrNoRows                         (* pgx.ErrNoRows *)
| ErrScan                           (* a column that does not fit its destination *)
| ErrRejected                       (* the statement was refused by the server *)
| ErrStore (e : store_error).

Inductive result (A : Type) : Type :=
| Ok (a : A)
| Err (e : error).
Arguments Ok {A} a.
Arguments Err {A} e.

(** ** strconv.Atoi and fiber's ParamsInt *)

Definition digit_of (a : ascii) : option Z :=
  let c := byte_of a in
  if (48 <=? c) && (c <=? 57) then Some (c - 48) else None.

Fixpoint parse_digits (n : Z) (s : string) : option Z :=
  match s with
  | EmptyString => Some n
  | String ch s' =>
      match digit_of ch with
      | Some d => parse_digits (n * 10 + d) s'
      | None => None
      end
  end.

(** An optional sign followed by at least one decimal digit. *)
Definition parse_decimal (s : string) : option Z :=
  match s with
  | EmptyString => None
  | String ch s' =>
      if (byte_of ch =? 45) then                     (* '-' *)
        match s' with
        | EmptyString => None
        | _ => Z.opp <$> parse_digits 0 s'
        end
      else if (byte_of ch =? 43) then                (* '+' *)
        match s' with
        | EmptyString => None
        | _ => parse_digits 0 s'
        end
      else parse_digits 0 s
  end.

(** [strconv.Atoi]: the value and [nil], or 0 with a syntax error, or the
    nearest bound with a range error. *)
Definition Atoi (s : string) : Z * option error :=
  match parse_decimal s with
  | None => (0, Some ErrSyntax)
  | Some n =>
      if n >? maxInt64 then (maxInt64, Some ErrRange)
      else if n <? minInt64 then (minInt64, Some ErrRange)
      else (n, None)
  end.

(** [c.ParamsInt(key)] without a default value: zero and an error when the
    parameter does not convert. *)
Definition ParamsInt (param : string) : Z * option error :=
  let '(value, err) := Atoi param in
  match err with
  | Some e => (0, Some (ErrConvert e))
  | None => (value, None)
  end.

(** ** unicode/utf8 *)

Module utf8.

Definition RuneSelf : Z := 0x80.
Definition MaxRune : Z := 0x10FFFF.
Definition surrogateMin : Z := 0xD800.
Definition surrogateMax : Z := 0xDFFF.

Definition t2 : Z := 0xC0.
Definition t3 : Z := 0xE0.
Definition t4 : Z := 0xF0.
Definition tx : Z := 0x80.
Definition maskx : Z := 0x3F.

Definition rune1Max : Z := 0x7F.
Definition rune2Max : Z := 0x7FF.
Definition rune3Max : Z := 0xFFFF.

Definition locb : Z := 0x80.
Definition hicb : Z := 0xBF.

(** Entries of the [first] table: the low three bits are the size of the
    sequence, the high four index [acceptRanges]. *)
Definition xx : Z := 0xF1.
Definition as_ : Z := 0xF0.
Definition s1 : Z := 0x02.
Definition s2 : Z := 0x13.
Definition s3 : Z := 0x03.
Definition s4 : Z := 0x23.
Definition s5 : Z := 0x34.
Definition s6 : Z := 0x04.
Definition s7 : Z := 0x44.

(** The 256-entry table [first], by the ranges of its rows. *)
Definition first (c : Z) : Z :=
  if c <? 0x80 then as_
  else if c <? 0xC2 then xx
  else if c <? 0xE0 then s1
  else if c =? 0xE0 then s2
  else if c <? 0xED then s3
  else if c =? 0xED then s4
  else if c <? 0xF0 then s3
  else if c =? 0xF0 then s5
  else if c <? 0xF4 then s6
  else if c =? 0xF4 then s7
  else xx.

Definition acceptRanges (i : Z) : Z * Z :=
  if i =? 0 then (locb, hicb)
  else if i =? 1 then (0xA0, hicb)
  else if i =? 2 then (locb, 0x9F)
  else if i =? 3 then (0x90, hicb)
  else if i =? 4 then (locb, 0x8F)
  else (0, 0).

(** [s !!! k]-style indexing into what is left of the string. *)
Definition at_ (s : list Z) (k : nat) : Z := nth k s 0.

(** How many bytes the loop of [RuneCountInString] advances when [s] is
    what is left of the string ([s = c :: _]). *)
Definition advance (c : Z) (s : list Z) : Z :=
  if c <? RuneSelf then 1                                  (* ASCII fast path *)
  else
    let x := first c in
    if x =? xx then 1                                      (* invalid *)
    else
      let size := Z.land x 7 in
      if size >? Z.of_nat (length s) then 1                (* short *)
      else
        let accept := acceptRanges (Z.shiftr x 4) in
        if (at_ s 1 <? accept.1) || (accept.2 <? at_ s 1) then 1
        else if size =? 2 then size
        else if (at_ s 2 <? locb) || (hicb <? at_ s 2) then 1
        else if size =? 3 then size
        else if (at_ s 3 <? locb) || (hicb <? at_ s 3) then 1
        else size.

(** The loop [for i := 0; i < ns; n++]: [s] is [s[i:]], one unit of
    [iterations] is one turn. *)
Fixpoint count_loop (iterations : nat) (s : list Z) (n : Z) : Z :=
  match iterations with
  | O => n
  | S iterations' =>
      match s with
      | [] => n
      | c :: _ => count_loop iterations' (drop (Z.to_nat (advance c s)) s) (n + 1)
      end
  end.

(** Every turn consumes at least one byte, so [len(s)] turns are enough. *)
Definition RuneCountInString (s : string) : Z :=
  count_loop (length (bytes s)) (bytes s) 0.

(** [utf8.AppendRune] on an empty buffer: the encoding of one rune. *)
Definition EncodeRune (r : Z) : list Z :=
  if (0 <=? r) && (r <=? rune1Max) then [r]
  else if (0 <=? r) && (r <=? rune2Max) then
    [Z.lor t2 (Z.shiftr r 6); Z.lor tx (Z.land r maskx)]
  else
    let r := if (r <? 0) || (MaxRune <? r)
                || ((surrogateMin <=? r) && (r <=? surrogateMax))
             then 0xFFFD else r in
    if r <=? rune3Max then
      [Z.lor t3 (Z.shiftr r 12);
       Z.lor tx (Z.land (Z.shiftr r 6) maskx);
       Z.lor tx (Z.land r maskx)]
    else
      [Z.lor t4 (Z.shiftr r 18);
       Z.lor tx (Z.land (Z.shiftr r 12) maskx);
       Z.lor tx (Z.land (Z.shiftr r 6) maskx);
       Z.lor tx (Z.land r maskx)].

(** A Unicode scalar value: a code point that is not a surrogate. *)
Definition ValidRune (r : Z) : Prop :=
  0 <= r <= MaxRune ∧ ¬ (surrogateMin <= r <= surrogateMax).

(** The Go string that holds the given code points. *)
Definition encode (runes : list Z) : string :=
  string_of_bytes (concat (EncodeRune <$> runes)).

End utf8.

(** ** The structs of [main.go] *)

Record Transacao := {
  Transacao_Valor : Z;
  Transacao_Tipo : string;
  Transacao_Descricao : string;
  Transacao_RealizadaEm : time;
}.

Record TransacaoRequest := {
  Valor : Z;
  Tipo : string;
  Descricao : string;
}.

Record Balance := {
  Saldo : Z;
  Limite : Z;
}.

Record BalanceResponse := {
  Total : Z;
  DataExtrato : time;
  BalanceResponse_Limite : Z;
}.

Record TransactionLog := {
  TransactionLog_Saldo : BalanceResponse;
  UltimasTransacoes : list Transacao;
}.

(** The zero value of [Balance], what [var response Balance] declares. *)
Definition Balance_zero : Balance := {| Saldo := 0; Limite := 0 |}.

(** ** Requests and responses *)

(** What [json.Unmarshal(c.Body(), &transaction)] makes of a body.  The
    decoder belongs to the standard library; a request body is represented
    by its outcome.  [&transaction] is a pointer to the pointer returned by
    [new], so a body that is the JSON literal [null] succeeds and leaves
    [transaction] nil. *)
Inductive unmarshalled : Type :=
| UnmarshalError (e : error)
| UnmarshalNil
| Unmarshalled (transaction : TransacaoRequest).

Record Ctx := {
  Params_id : string;          (* the [:id] segment of the path *)
  Body : unmarshalled;
}.

Definition StatusOK : Z := 200.
Definition StatusBadRequest : Z := 400.
Definition StatusNotFound : Z := 404.
Definition StatusUnprocessableEntity : Z := 422.
Definition StatusInternalServerError : Z := 500.

Inductive body : Type :=
| StatusMessage (status : Z)          (* the text SendStatus writes *)
| BalanceJSON (b : Balance)           (* json.Marshal(response) *)
| TransactionLogJSON (l : TransactionLog).

Record Response := {
  StatusCode : Z;
  ContentType : option string;
  ResponseBody : body;
}.

(** A handler either leaves a response behind or panics. *)
Inductive outcome : Type :=
| Respond (r : Response)
| Panic.

Definition SendStatus (status : Z) : outcome :=
  Respond {| StatusCode := status; ContentType := None;
             ResponseBody := StatusMessage status |}.

Definition SendJSON (b : body) : outcome :=
  Respond {| StatusCode := StatusOK; ContentType := Some "application/json";
             ResponseBody := b |}.

(** ** Programs over the connection pool *)

(** One constructor per call the handlers make on [dbpool] (and one for the
    clock); the continuation receives what the call returns.
    - [Exec]: the [INSERT INTO transacoes (valor, tipo, descricao, cliente_id)];
    - [QueryRow]: the [SELECT] of a client's [limite] and [saldo] followed by
      [Scan]: the pair [(limite, saldo)] or the error of [Scan];
    - [Query]: the [SELECT ... ORDER BY realizada_em DESC LIMIT 10]: an error,
      or the rows, each one with what [rows.Scan] yields on it;
    - [Now]: [time.Now().UTC()]. *)
Inductive prog (A : Type) : Type :=
| Ret (a : A)
| Exec (valor : Z) (tipo descricao : string) (cliente_id : Z)
       (k : option error → prog A)
| QueryRow (id : Z) (k : result (Z * Z) → prog A)
| Query (cliente_id : Z) (k : result (list (result Transacao)) → prog A)
| Now (k : time → prog A).
Arguments Ret {A} a.
Arguments Exec {A} valor tipo descricao cliente_id k.
Arguments QueryRow {A} id k.
Arguments Query {A} cliente_id k.
Arguments Now {A} k.

(** ** main.go *)

Definition clientExists (id : Z) : option error :=
  if (id >? 0) && (id <=? 5) then None
  else Some ErrClienteNaoExiste.

Definition handleTransactions (c : Ctx) : prog outcome :=
  let '(clientId, _) := ParamsInt (Params_id c) in
  match clientExists clientId with
  | Some _ => Ret (SendStatus StatusNotFound)
  | None =>
  match Body c with
  | UnmarshalError _ => Ret (SendStatus StatusUnprocessableEntity)
  | UnmarshalNil => Ret Panic            (* transaction.Descricao on a nil pointer *)
  | Unmarshalled transaction =>
  let length := utf8.RuneCountInString (Descricao transaction) in
  if (length >? 10) || (length <? 1) then
    Ret (SendStatus StatusUnprocessableEntity)
  else if negb (String.eqb (Tipo transaction) "c")
          && negb (String.eqb (Tipo transaction) "d") then
    Ret (SendStatus StatusUnprocessableEntity)
  else
    Exec (Valor transaction) (Tipo transaction) (Descricao transaction) clientId
      (fun err =>
    match err with
    | Some _ => Ret (SendStatus StatusUnprocessableEntity)
    | None =>
    QueryRow clientId (fun row =>
    (* the error of Scan is dropped: on failure [response] keeps its zero value *)
    let response :=
      match row with
      | Ok (limite, saldo) => {| Saldo := saldo; Limite := limite |}
      | Err _ => Balance_zero
      end in
    Ret (SendJSON (BalanceJSON response)))
    end)
  end
  end.

(** The [for rows.Next()] loop: scan and append, leaving at the first row
    that does not scan. *)
Fixpoint scan_rows (rows : list (result Transacao)) (transactions : list Transacao)
  : result (list Transacao) :=
  match rows with
  | [] => Ok transactions
  | Ok transaction :: rows' => scan_rows rows' (transactions ++ [transaction])
  | Err e :: _ => Err e
  end.

(** [Time.MarshalJSON] refuses years outside [0, 9999]. *)
Definition year0 : time := -62167219200 * 1000000.
Definition year10000 : time := 253402300800 * 1000000.
Definition Time_MarshalJSON_ok (t : time) : bool :=
  (year0 <=? t) && (t <? year10000).

Definition Marshal_TransactionLog (l : TransactionLog) : result body :=
  if Time_MarshalJSON_ok (DataExtrato (TransactionLog_Saldo l))
     && forallb (fun t => Time_MarshalJSON_ok (Transacao_RealizadaEm t))
                (UltimasTransacoes l)
  then Ok (TransactionLogJSON l)
  else Err ErrRange.

Definition handleTransactionLog (c : Ctx) : prog outcome :=
  let '(clientId, _) := ParamsInt (Params_id c) in
  match clientExists clientId with
  | Some _ => Ret (SendStatus StatusNotFound)
  | None =>
  Query clientId (fun rows =>
  match rows with
  | Err _ => Ret (SendStatus StatusUnprocessableEntity)
  | Ok rows =>
  QueryRow clientId (fun row =>
  match row with
  | Err _ => Ret (SendStatus StatusInternalServerError)
  | Ok (limite, saldo) =>
  match scan_rows rows [] with
  | Err _ => Ret (SendStatus StatusBadRequest)
  | Ok transactions =>
  Now (fun now =>
  let finalResponse :=
    {| TransactionLog_Saldo :=
         {| Total := saldo; BalanceResponse_Limite := limite; DataExtrato := now |};
       UltimasTransacoes := transactions |} in
  (* [err] is nil here, the check of line 147 never fires *)
  match Marshal_TransactionLog finalResponse with
  | Err _ => Ret (SendStatus StatusInternalServerError)
  | Ok jsonResponse => Ret (SendJSON jsonResponse)
  end)
  end
  end)
  end)
  end.

(** ** Running a program *)

(** What answers the calls: a state [S] and, for each call, what it returns
    and the state it leaves.  The two [SELECT]s and the clock only read.  The
    time is read off the state, so it moves only where the state does: the
    time that passes between two calls is not part of this. *)
Record Driver (S : Type) := {
  drv_Exec : Z → string → string → Z → S → option error * S;
  drv_QueryRow : Z → S → result (Z * Z);
  drv_Query : Z → S → result (list (result Transacao));
  drv_Now : S → time;
}.
Arguments drv_Exec {S} _ _ _ _ _ _.
Arguments drv_QueryRow {S} _ _ _.
Arguments drv_Query {S} _ _ _.
Arguments drv_Now {S} _ _.

(** One call on the pool. *)
Definition step {S A} (d : Driver S) (p : prog A) (s : S) : prog A * S :=
  match p with
  | Ret a => (Ret a, s)
  | Exec valor tipo descricao cliente_id k =>
      let '(err, s') := drv_Exec d valor tipo descricao cliente_id s in (k err, s')
  | QueryRow id k => (k (drv_QueryRow d id s), s)
  | Query cliente_id k => (k (drv_Query d cliente_id s), s)
  | Now k => (k (drv_Now d s), s)
  end.

(** The whole handler, with nothing else running in between. *)
Fixpoint run {S A} (d : Driver S) (p : prog A) (s : S) : A * S :=
  match p with
  | Ret a => (a, s)
  | Exec valor tipo descricao cliente_id k =>
      let '(err, s') := drv_Exec d valor tipo descricao cliente_id s in run d (k err) s'
  | QueryRow id k => run d (k (drv_QueryRow d id s)) s
  | Query cliente_id k => run d (k (drv_Query d cliente_id s)) s
  | Now k => run d (k (drv_Now d s)) s
  end.

(** Two requests in flight: [schedule] says whose call goes next ([true] for
    the first); when it is exhausted both run to their end, the first one
    first. *)
Fixpoint interleave {S A} (d : Driver S) (schedule : list bool)
    (p q : prog A) (s : S) : A * A * S :=
  match schedule with
  | [] => let '(a, s1) := run d p s in
          let '(b, s2) := run d q s1 in (a, b, s2)
  | true :: schedule' => let '(p', s') := step d p s in interleave d schedule' p' q s'
  | false :: schedule' => let '(q', s') := step d q s in interleave d schedule' p q' s'
  end.

(** ** The Ledger Store *)

(** Everything in this module is modelled from the spec: [main.go] holds no
    table, no balance arithmetic and no limit check, only the SQL it sends. *)
Module Ledger.

(** Modelled from the spec: the type of a transaction of §3, [credit]
    raises the balance and [debit] lowers it (the schema is not in
    [main.go]). *)
Inductive TxType : Type := Credit | Debit.

Global Instance TxType_eq_dec : EqDecision TxType.
Proof. solve_decision. Defined.

(** Modelled from the spec: the Client of §3 ([id] is the key it is stored
    under), whose table is not in [main.go]. *)
Record Client := {
  limit : Z;
  balance : Z;
}.

(** Modelled from the spec: the Transaction of §3, whose table is not in
    [main.go]. *)
Record Transaction := {
  amount : Z;
  type : TxType;
  description : string;
  client_id : Z;
  occurred_at : time;
}.

(** Modelled from the spec: the schema behind [dbpool] (the [clientes] and
    [transacoes] tables and whatever the server runs on an insert) is not
    part of [main.go].  Clients by id, the append-only transactions with
    the most recently inserted first, and the server's clock. *)
Record Store := {
  clients : gmap Z Client;
  transactions : list Transaction;
  clock : time;
}.

(** Modelled from the spec: what [applyTransaction] of §4.2 returns,
    [(newBalance, limit) | LimitExceeded | NotFound]. *)
Inductive applied : Type :=
| Applied (newBalance limit : Z)
| Refused (e : store_error).

(** Modelled from the spec: [getClient(id) -> Client | NotFound]. *)
Definition getClient (st : Store) (id : Z) : option Client := clients st !! id.

(** Modelled from the spec: the signed delta of §4.2, [+amount] for a credit
    and [-amount] for a debit. *)
Definition delta (ty : TxType) (amount : Z) : Z :=
  match ty with
  | Credit => amount
  | Debit => - amount
  end.

(** Modelled from the spec: [applyTransaction] of §4.2, the atomic unit the
    missing schema is to provide.  The signed delta, the candidate balance,
    the abort of a debit below [-limit] with nothing changed, and otherwise
    the new balance persisted together with the transaction record, whose
    [occurred_at] the server assigns. *)
Definition applyTransaction (st : Store) (clientId amount : Z) (ty : TxType)
    (description : string) : applied * Store :=
  match getClient st clientId with
  | None => (Refused NotFound, st)
  | Some c =>
      let newBalance := balance c + delta ty amount in
      if bool_decide (ty = Debit) && (newBalance <? - limit c) then
        (Refused LimitExceeded, st)
      else
        (Applied newBalance (limit c),
         {| clients := <[clientId := {| limit := limit c; balance := newBalance |}]>
                         (clients st);
            transactions :=
              {| amount := amount; type := ty; description := description;
                 client_id := clientId; occurred_at := clock st |}
              :: transactions st;
            clock := clock st |})
  end.

(** Modelled from the spec: time passes between requests and the timestamps
    the server assigns never go back (§3). *)
Definition tick (dt : Z) (st : Store) : Store :=
  {| clients := clients st; transactions := transactions st;
     clock := clock st + Z.max 0 dt |}.

(** Modelled from the spec: the order of §4.2, [occurred_at] descending with
    ties in insertion order, most recently inserted first (the engine that
    runs [ORDER BY realizada_em DESC] is not in [main.go]).  A stable
    insertion sort: among equal timestamps the order of the table is kept. *)
Fixpoint insert_desc (t : Transaction) (l : list Transaction) : list Transaction :=
  match l with
  | [] => [t]
  | u :: l' =>
      if occurred_at u <=? occurred_at t then t :: u :: l'
      else u :: insert_desc t l'
  end.

(** Modelled from the spec: the whole table in that order. *)
Definition order_desc (l : list Transaction) : list Transaction :=
  foldr insert_desc [] l.

(** Modelled from the spec: [getRecentTransactions(clientId, limit=10)],
    which is also what the statement's [SELECT ... WHERE cliente_id = $1
    ORDER BY realizada_em DESC LIMIT 10] asks for. *)
Definition getRecentTransactions (st : Store) (clientId : Z) (n : nat)
  : list Transaction :=
  take n (order_desc (filter (λ t, client_id t = clientId) (transactions st))).

(** Modelled from the spec: the invariant of §3, [balance >= -limit]. *)
Definition within_limit (c : Client) : Prop := - limit c <= balance c.

(** Modelled from the spec: the invariant, for all clients of the store. *)
Definition invariant (st : Store) : Prop :=
  ∀ id c, clients st !! id = Some c → within_limit c.

(** Modelled from the spec: the arguments of one [applyTransaction]. *)
Record Submission := {
  sub_client : Z;
  sub_amount : Z;
  sub_type : TxType;
  sub_description : string;
}.

(** Modelled from the spec: [applyTransaction] on a submission. *)
Definition apply (st : Store) (t : Submission) : applied * Store :=
  applyTransaction st (sub_client t) (sub_amount t) (sub_type t) (sub_description t).

(** Modelled from the spec: a sequence of applied transactions, one after
    the other. *)
Definition apply_all (st : Store) (ts : list Submission) : Store :=
  foldl (λ st t, (apply st t).2) st ts.

(** Modelled from the spec: what can happen to the store, an applied
    transaction or time passing. *)
Inductive event : Type :=
| Submit (t : Submission)
| Tick (dt : Z).

Definition occur (st : Store) (ev : event) : Store :=
  match ev with
  | Submit t => (apply st t).2
  | Tick dt => tick dt st
  end.

(** Modelled from the spec: the table keeps the order of insertion and no
    timestamp is ahead of the clock. *)
Definition chronological (st : Store) : Prop :=
  StronglySorted (λ a b, occurred_at b <= occurred_at a) (transactions st)
  ∧ Forall (λ t, occurred_at t <= clock st) (transactions st).

End Ledger.

(** ** PostgreSQL behind the pool *)

(** Modelled from the spec: the store of §4.2 behind the pool, and whether
    the pool still reaches it ([StorageUnavailable] of §7 when it does
    not). *)
Record Database := {
  store : Ledger.Store;
  reachable : bool;
}.

(** The [tipo] column: "c" for a credit, "d" for a debit. *)
Definition type_of_tipo (tipo : string) : option Ledger.TxType :=
  if String.eqb tipo "c" then Some Ledger.Credit
  else if String.eqb tipo "d" then Some Ledger.Debit
  else None.

Definition tipo_of_type (ty : Ledger.TxType) : string :=
  match ty with
  | Ledger.Credit => "c"
  | Ledger.Debit => "d"
  end.

(** The columns [valor, tipo, descricao, realizada_em] of a row, as the
    statement scans them into a [Transacao]. *)
Definition row_of (t : Ledger.Transaction) : Transacao :=
  {| Transacao_Valor := Ledger.amount t;
     Transacao_Tipo := tipo_of_type (Ledger.type t);
     Transacao_Descricao := Ledger.description t;
     Transacao_RealizadaEm := Ledger.occurred_at t |}.

Definition unavailable : error := ErrStore StorageUnavailable.

(** Modelled from the spec: the insert is the store's [applyTransaction]; an
    abort reaches the handler as the error of [Exec], and so does a pool that
    cannot reach the server. *)
Definition pg_Exec (valor : Z) (tipo descricao : string) (cliente_id : Z)
    (db : Database) : option error * Database :=
  if negb (reachable db) then (Some unavailable, db)
  else
    match type_of_tipo tipo with
    | None => (Some ErrRejected, db)
    | Some ty =>
        match Ledger.applyTransaction (store db) cliente_id valor ty descricao with
        | (Ledger.Applied _ _, st') => (None, {| store := st'; reachable := reachable db |})
        | (Ledger.Refused e, _) => (Some (ErrStore e), db)
        end
    end.

(** Modelled from the spec: [SELECT limite, saldo FROM clientes WHERE id = $1]
    on the store, [getClient] of §4.2; no row when the client is not there. *)
Definition pg_QueryRow (id : Z) (db : Database) : result (Z * Z) :=
  if negb (reachable db) then Err unavailable
  else
    match Ledger.getClient (store db) id with
    | Some c => Ok (Ledger.limit c, Ledger.balance c)
    | None => Err ErrNoRows
    end.

(** Modelled from the spec: the [SELECT] of the statement on the store,
    [getRecentTransactions] of §4.2 with the limit 10 of the query; every row
    scans. *)
Definition pg_Query (cliente_id : Z) (db : Database) : result (list (result Transacao)) :=
  if negb (reachable db) then Err unavailable
  else Ok ((λ t, Ok (row_of t)) <$> Ledger.getRecentTransactions (store db) cliente_id 10).

(** The pool on that database; [time.Now()] reads the same clock. *)
Definition pg : Driver Database :=
  {| drv_Exec := pg_Exec;
     drv_QueryRow := pg_QueryRow;
     drv_Query := pg_Query;
     drv_Now := λ db, Ledger.clock (store db) |}.

(** A fault of the pool: the connection is lost right after an insert has
    been committed, so the next call finds no server. *)
Definition pg_losing_connection : Driver Database :=
  {| drv_Exec := λ valor tipo descricao cliente_id db,
       let '(err, db') := pg_Exec valor tipo descricao cliente_id db in
       (err, {| store := store db'; reachable := false |});
     drv_QueryRow := pg_QueryRow;
     drv_Query := pg_Query;
     drv_Now := λ db, Ledger.clock (store db) |}.

(** ** Reading programs and outcomes *)

(** The program has passed every check and is about to insert. *)
Definition reaches_insert {A} (p : prog A) : bool :=
  match p with
  | Exec _ _ _ _ _ => true
  | _ => false
  end.

(** What the handler asks the pool to insert, if it gets that far. *)
Definition inserted {A} (p : prog A) : option (Z * string * string * Z) :=
  match p with
  | Exec valor tipo descricao cliente_id _ => Some (valor, tipo, descricao, cliente_id)
  | _ => None
  end.

Definition status_of (o : outcome) : option Z :=
  match o with
  | Respond r => Some (StatusCode r)
  | Panic => None
  end.

Definition transactions_of (o : outcome) : list Transacao :=
  match o with
  | Respond {| ResponseBody := TransactionLogJSON l |} => UltimasTransacoes l
  | _ => []
  end.

(** The client a request is for, as the handlers read it. *)
Definition clientId_of (c : Ctx) : Z := (ParamsInt (Params_id c)).1.

(** One request after the other on the same database. *)
Definition serve (db : Database) (c : Ctx) : Database :=
  (run pg (handleTransactions c) db).2.

(** A request that passes every check of [handleTransactions]. *)
Definition well_formed (c : Ctx) (t : TransacaoRequest) : Prop :=
  1 <= clientId_of c <= 5 ∧ Body c = Unmarshalled t
  ∧ 1 <= utf8.RuneCountInString (Descricao t) <= 10
  ∧ (Tipo t = "c" ∨ Tipo t = "d").

(** Newest first, on the rows of the store and on what the statement shows. *)
Definition newer_first (a b : Ledger.Transaction) : Prop :=
  Ledger.occurred_at b <= Ledger.occurred_at a.
Definition most_recent_first (a b : Transacao) : Prop :=
  Transacao_RealizadaEm b <= Transacao_RealizadaEm a.

(** ** Scenarios *)

Module Scenario.

(** Client 1 with limit 1000 and balance 0, nothing recorded yet. *)
Definition store0 : Ledger.Store :=
  {| Ledger.clients := {[ 1 := {| Ledger.limit := 1000; Ledger.balance := 0 |} ]};
     Ledger.transactions := [];
     Ledger.clock := 1700000000000000 |}.

Definition db0 : Database := {| store := store0; reachable := true |}.

(** The same database with the server out of reach. *)
Definition db_down : Database := {| store := store0; reachable := false |}.

Definition post (id : string) (t : TransacaoRequest) : Ctx :=
  {| Params_id := id; Body := Unmarshalled t |}.

(** [{"valor": 500, "tipo": "d", "descricao": "teste"}] for client 1. *)
Definition debit500 : Ctx :=
  post "1" {| Valor := 500; Tipo := "d"; Descricao := "teste" |}.

(** [{"valor": 0, "tipo": "c", "descricao": "x"}] for client 1. *)
Definition credit0 : Ctx :=
  post "1" {| Valor := 0; Tipo := "c"; Descricao := "x" |}.

(** [{"valor": -700, "tipo": "d", "descricao": "x"}] for client 1. *)
Definition debit_minus700 : Ctx :=
  post "1" {| Valor := -700; Tipo := "d"; Descricao := "x" |}.

(** [{"valor": -5000, "tipo": "c", "descricao": "x"}] for client 1. *)
Definition credit_minus5000 : Ctx :=
  post "1" {| Valor := -5000; Tipo := "c"; Descricao := "x" |}.

(** A request for client 999, and one whose path segment is no number. *)
Definition unknown999 : Ctx :=
  post "999" {| Valor := 1; Tipo := "c"; Descricao := "x" |}.
Definition not_a_number : Ctx :=
  post "abc" {| Valor := 1; Tipo := "c"; Descricao := "x" |}.

(** U+00E3 (a with tilde, two bytes), U+20AC (euro sign, three bytes) and
    U+1F600 (four bytes). *)
Definition a_tilde : Z := 0xE3.
Definition euro : Z := 0x20AC.
Definition grin : Z := 0x1F600.

(** A description of [n] times the same code point. *)
Definition described (n : nat) (rune : Z) : Ctx :=
  post "1" {| Valor := 1; Tipo := "c"; Descricao := utf8.encode (replicate n rune) |}.

Definition tx (amount : Z) (ty : Ledger.TxType) (at_ : time) : Ledger.Transaction :=
  {| Ledger.amount := amount; Ledger.type := ty; Ledger.description := "t";
     Ledger.client_id := 1; Ledger.occurred_at := at_ |}.

(** Twelve transactions of client 1 (one of another client in between),
    stored in no particular order of time. *)
Definition busy : Database :=
  {| store :=
       {| Ledger.clients := {[ 1 := {| Ledger.limit := 1000; Ledger.balance := 78 |} ]};
          Ledger.transactions :=
            [ tx 1 Ledger.Credit 5; tx 2 Ledger.Credit 9; tx 3 Ledger.Credit 1;
              tx 4 Ledger.Credit 12; tx 5 Ledger.Credit 3; tx 6 Ledger.Credit 7;
              {| Ledger.amount := 99; Ledger.type := Ledger.Debit;
                 Ledger.description := "other"; Ledger.client_id := 2;
                 Ledger.occurred_at := 100 |};
              tx 7 Ledger.Credit 7; tx 8 Ledger.Credit 2; tx 9 Ledger.Credit 11;
              tx 10 Ledger.Credit 4; tx 11 Ledger.Credit 8; tx 12 Ledger.Credit 6 ];
          Ledger.clock := 13 |};
     reachable := true |}.

Definition statement1 : Ctx := {| Params_id := "1"; Body := UnmarshalNil |}.

End Scenario.

(** ** Calls on the pool *)

(** The calls a program makes on the pool, in the order it makes them. *)
Inductive call : Type :=
| CallExec (valor : Z) (tipo descricao : string) (cliente_id : Z)
| CallQueryRow (id : Z)
| CallQuery (cliente_id : Z).

Fixpoint calls {S A} (d : Driver S) (p : prog A) (s : S) : list call :=
  match p with
  | Ret _ => []
  | Exec valor tipo descricao cliente_id k =>
      let '(err, s') := drv_Exec d valor tipo descricao cliente_id s in
      CallExec valor tipo descricao cliente_id :: calls d (k err) s'
  | QueryRow id k => CallQueryRow id :: calls d (k (drv_QueryRow d id s)) s
  | Query cliente_id k => CallQuery cliente_id :: calls d (k (drv_Query d cliente_id s)) s
  | Now k => calls d (k (drv_Now d s)) s
  end.

(** ** Path segments *)

(** The character of a decimal digit. *)
Definition digit_char (d : Z) : ascii := ascii_of_N (Z.to_N (48 + d)).

(** [k] zeros in front of [s]. *)
Fixpoint zeros (k : nat) (s : string) : string :=
  match k with
  | O => s
  | S k' => String "0" (zeros k' s)
  end.

(** An optional plus sign, [k] zeros and the digit [d]. *)
Definition segment (plus : bool) (k : nat) (d : Z) : string :=
  let digits := zeros k (String (digit_char d) EmptyString) in
  if plus then String "+" digits else digits.

Ltac dlia := Z.to_euclidean_division_equations; lia.

(** Case analysis on every integer comparison of the goal. *)
Ltac zbool :=
  repeat match goal with
  | |- context [?a <? ?b] => destruct (Z.ltb_spec a b)
  | |- context [?a <=? ?b] => destruct (Z.leb_spec a b)
  | |- context [?a =? ?b] => destruct (Z.eqb_spec a b)
  | |- context [?a >? ?b] => rewrite (Z.gtb_ltb a b)
  end; cbn [andb orb negb] in *; try lia.

(** * Facts *)

(** ** unicode/utf8: [RuneCountInString] counts code points *)

Module utf8_facts.
Import utf8.

(** A property of the integers below [n], by checking each of them. *)
Lemma forall_below (P : Z → Prop) `{∀ x, Decision (P x)} (n : Z) :
  bool_decide (Forall P (seqZ 0 n)) = true → ∀ x, 0 <= x < n → P x.
Proof.
  intros Hb x Hx. apply bool_decide_eq_true in Hb.
  rewrite Forall_forall in Hb. apply Hb. apply elem_of_seqZ. lia.
Qed.

(** The marker bits and the payload never overlap: [|] is [+]. *)
Lemma lor_tx x : 0 <= x < 64 → Z.lor tx x = tx + x.
Proof. revert x. apply (forall_below (λ x, Z.lor tx x = tx + x)). vm_compute. reflexivity. Qed.
Lemma lor_t2 x : 0 <= x < 32 → Z.lor t2 x = t2 + x.
Proof. revert x. apply (forall_below (λ x, Z.lor t2 x = t2 + x)). vm_compute. reflexivity. Qed.
Lemma lor_t3 x : 0 <= x < 16 → Z.lor t3 x = t3 + x.
Proof. revert x. apply (forall_below (λ x, Z.lor t3 x = t3 + x)). vm_compute. reflexivity. Qed.
Lemma lor_t4 x : 0 <= x < 8 → Z.lor t4 x = t4 + x.
Proof. revert x. apply (forall_below (λ x, Z.lor t4 x = t4 + x)). vm_compute. reflexivity. Qed.
Lemma land_maskx x : Z.land x maskx = x mod 64.
Proof. change maskx with (Z.ones 6). rewrite Z.land_ones by lia. reflexivity. Qed.

(** The encoding of a scalar value, in arithmetic. *)
Lemma EncodeRune_arith r : ValidRune r →
  EncodeRune r =
    if r <? 0x80 then [r]
    else if r <? 0x800 then [0xC0 + r / 64; 0x80 + r mod 64]
    else if r <? 0x10000 then [0xE0 + r / 4096; 0x80 + (r / 64) mod 64; 0x80 + r mod 64]
    else [0xF0 + r / 262144; 0x80 + (r / 4096) mod 64; 0x80 + (r / 64) mod 64; 0x80 + r mod 64].
Proof.
  intros [Hr Hs]. unfold MaxRune, surrogateMin, surrogateMax in *.
  unfold EncodeRune, rune1Max, rune2Max, rune3Max, MaxRune, surrogateMin, surrogateMax.
  rewrite !land_maskx, !Z.shiftr_div_pow2 by lia.
  change (2 ^ 6) with 64. change (2 ^ 12) with 4096. change (2 ^ 18) with 262144.
  zbool.
  all: rewrite ?lor_t2, ?lor_t3, ?lor_t4, ?lor_tx by dlia; try reflexivity.
Qed.

(** The rows of [first]. *)
Lemma first_as c : c < 0x80 → first c = as_.
Proof. intros. unfold first. zbool. Qed.
Lemma first_s1 c : 0xC2 <= c <= 0xDF → first c = s1.
Proof. intros. unfold first. zbool. Qed.
Lemma first_s2 c : c = 0xE0 → first c = s2.
Proof. intros. unfold first. zbool. Qed.
Lemma first_s3 c : 0xE1 <= c <= 0xEC ∨ 0xEE <= c <= 0xEF → first c = s3.
Proof. intros. unfold first. zbool. Qed.
Lemma first_s4 c : c = 0xED → first c = s4.
Proof. intros. unfold first. zbool. Qed.
Lemma first_s5 c : c = 0xF0 → first c = s5.
Proof. intros. unfold first. zbool. Qed.
Lemma first_s6 c : 0xF1 <= c <= 0xF3 → first c = s6.
Proof. intros. unfold first. zbool. Qed.
Lemma first_s7 c : c = 0xF4 → first c = s7.
Proof. intros. unfold first. zbool. Qed.

(** Once [first c] is known: put in the size and the accept range of the
    entry, then decide the comparisons. *)
Ltac advance_with Hfirst size accept :=
  unfold advance; rewrite Hfirst by lia; cbv zeta;
  match goal with
  | |- context [Z.land ?x 7] =>
      change (Z.land x 7) with size;
      change (acceptRanges (Z.shiftr x 4)) with accept;
      change (x =? xx) with false
  end;
  unfold RuneSelf, locb, hicb, at_; cbn [fst snd nth length]; zbool.

(** The loop steps over a well-formed sequence of 1, 2, 3 or 4 bytes at
    once. *)
Lemma advance_1 b0 rest : 0 <= b0 < 0x80 → advance b0 (b0 :: rest) = 1.
Proof. intros. unfold advance, RuneSelf. zbool. Qed.

Lemma advance_2 b0 b1 rest :
  0xC2 <= b0 <= 0xDF → 0x80 <= b1 <= 0xBF → advance b0 (b0 :: b1 :: rest) = 2.
Proof. intros. advance_with first_s1 2 (0x80, 0xBF). Qed.

Lemma advance_3 b0 b1 b2 rest :
  0xE0 <= b0 <= 0xEF → 0x80 <= b1 <= 0xBF → 0x80 <= b2 <= 0xBF →
  (b0 = 0xE0 → 0xA0 <= b1) → (b0 = 0xED → b1 <= 0x9F) →
  advance b0 (b0 :: b1 :: b2 :: rest) = 3.
Proof.
  intros ??? Hlo Hhi.
  destruct (decide (b0 = 0xE0)) as [->|]; [advance_with first_s2 3 (0xA0, 0xBF)|].
  destruct (decide (b0 = 0xED)) as [->|]; [advance_with first_s4 3 (0x80, 0x9F)|].
  advance_with first_s3 3 (0x80, 0xBF).
Qed.

Lemma advance_4 b0 b1 b2 b3 rest :
  0xF0 <= b0 <= 0xF4 → 0x80 <= b1 <= 0xBF → 0x80 <= b2 <= 0xBF → 0x80 <= b3 <= 0xBF →
  (b0 = 0xF0 → 0x90 <= b1) → (b0 = 0xF4 → b1 <= 0x8F) →
  advance b0 (b0 :: b1 :: b2 :: b3 :: rest) = 4.
Proof.
  intros ???? Hlo Hhi.
  destruct (decide (b0 = 0xF0)) as [->|]; [advance_with first_s5 4 (0x90, 0xBF)|].
  destruct (decide (b0 = 0xF4)) as [->|]; [advance_with first_s7 4 (0x80, 0x8F)|].
  advance_with first_s6 4 (0x80, 0xBF).
Qed.

(** One turn of the loop per encoded code point. *)
Lemma count_loop_EncodeRune r rest iterations n : ValidRune r →
  count_loop (S iterations) (EncodeRune r ++ rest) n = count_loop iterations rest (n + 1).
Proof.
  intros Hv. rewrite EncodeRune_arith by done. destruct Hv as [Hr Hs].
  unfold MaxRune, surrogateMin, surrogateMax in *.
  destruct (Z.ltb_spec r 128).
  { cbn [count_loop app]. rewrite advance_1 by lia. reflexivity. }
  destruct (Z.ltb_spec r 2048).
  { cbn [count_loop app]. rewrite advance_2 by dlia. reflexivity. }
  destruct (Z.ltb_spec r 65536).
  { cbn [count_loop app]. rewrite advance_3 by dlia. reflexivity. }
  cbn [count_loop app]. rewrite advance_4 by dlia. reflexivity.
Qed.

Lemma count_loop_nil iterations n : count_loop iterations [] n = n.
Proof. by destruct iterations. Qed.

Lemma count_loop_runes runes extra n :
  Forall ValidRune runes →
  count_loop (length runes + extra) (concat (EncodeRune <$> runes)) n
  = n + Z.of_nat (length runes).
Proof.
  intros Hv. revert n. induction Hv as [|r runes Hr _ IH]; intros n.
  - cbn. rewrite count_loop_nil. lia.
  - cbn [fmap list_fmap concat length Nat.add].
    rewrite count_loop_EncodeRune by done. rewrite IH. lia.
Qed.

(** Encodings are not empty and made of bytes. *)
Lemma EncodeRune_bytes r : ValidRune r →
  EncodeRune r ≠ [] ∧ Forall (λ b, 0 <= b < 256) (EncodeRune r).
Proof.
  intros Hv. rewrite EncodeRune_arith by done. destruct Hv as [Hr Hs].
  unfold MaxRune in Hr.
  zbool; (split; [done|]); repeat constructor; dlia.
Qed.

Lemma encoded_length runes :
  Forall ValidRune runes →
  (length runes <= length (concat (EncodeRune <$> runes)))%nat
  ∧ Forall (λ b, 0 <= b < 256) (concat (EncodeRune <$> runes)).
Proof.
  induction 1 as [|r runes Hr _ [IHl IHb]]; [by split; constructor|].
  destruct (EncodeRune_bytes r Hr) as [Hne Hb].
  cbn [fmap list_fmap concat]. rewrite length_app. split.
  - destruct (EncodeRune r); [done|]. cbn. lia.
  - by apply Forall_app.
Qed.

Lemma bytes_string_of_bytes l :
  Forall (λ b, 0 <= b < 256) l → bytes (string_of_bytes l) = l.
Proof.
  induction 1 as [|b l Hb _ IH]; [done|].
  cbn. rewrite IH. f_equal. unfold byte_of.
  rewrite N_ascii_embedding by lia. lia.
Qed.

(** [RuneCountInString] of the UTF-8 form of a list of code points is the
    length of the list. *)
Lemma RuneCountInString_encode runes :
  Forall ValidRune runes →
  RuneCountInString (encode runes) = Z.of_nat (length runes).
Proof.
  intros Hv. destruct (encoded_length runes Hv) as [Hl Hb].
  unfold RuneCountInString, encode. rewrite bytes_string_of_bytes by done.
  replace (length (concat (EncodeRune <$> runes)))
    with (length runes + (length (concat (EncodeRune <$> runes)) - length runes))%nat by lia.
  rewrite count_loop_runes by done. lia.
Qed.

(** Every turn consumes at least one byte, so the loop is over within
    [len(s)] turns and more turns change nothing. *)
Lemma advance_pos c s : 1 <= advance c s.
Proof.
  unfold advance, RuneSelf. destruct (Z.ltb_spec c 128); [lia|].
  assert (Hc : first c ∈ [xx; s1; s2; s3; s4; s5; s6; s7]).
  { unfold first. zbool; set_solver. }
  cbv zeta. generalize dependent (first c). intros x Hx.
  repeat (apply elem_of_cons in Hx as [->|Hx]); [..|by apply elem_of_nil in Hx].
  all: repeat match goal with
       | |- context [if ?b then _ else _] => destruct b
       end; vm_compute; congruence.
Qed.

Lemma count_loop_enough_aux bound : ∀ s iterations n,
  (length s <= bound)%nat → (length s <= iterations)%nat →
  count_loop iterations s n = count_loop (length s) s n.
Proof.
  induction bound as [|bound IH]; intros s iterations n Hb Hlen.
  { destruct s; [by rewrite !count_loop_nil|cbn in Hb; lia]. }
  destruct s as [|c s']; [by rewrite !count_loop_nil|].
  destruct iterations as [|iterations]; [cbn in Hlen; lia|].
  cbn [count_loop length] in *. pose proof (advance_pos c (c :: s')) as Hpos.
  assert (Hdrop : (length (drop (Z.to_nat (advance c (c :: s'))) (c :: s')) <= length s')%nat).
  { rewrite length_drop. cbn [length]. lia. }
  rewrite (IH _ iterations) by lia. rewrite (IH _ (length s')) by lia. reflexivity.
Qed.

Lemma count_loop_enough s iterations n :
  (length s <= iterations)%nat →
  count_loop iterations s n = count_loop (length s) s n.
Proof. by apply (count_loop_enough_aux (length s)). Qed.

End utf8_facts.

(** ** The handlers, check by check *)

Lemma clientExists_None id : clientExists id = None ↔ 1 <= id <= 5.
Proof. unfold clientExists. zbool; split; (done || lia). Qed.

Lemma clientExists_Some id :
  ¬ (1 <= id <= 5) → clientExists id = Some ErrClienteNaoExiste.
Proof. intros. unfold clientExists. zbool; done. Qed.

Lemma Atoi_error_zero s e : (Atoi s).2 = Some e → (ParamsInt s).1 = 0.
Proof. unfold ParamsInt. destruct (Atoi s) as [v [e'|]]; cbn; congruence. Qed.

Lemma ParamsInt_Atoi s n : Atoi s = (n, None) → (ParamsInt s).1 = n.
Proof. unfold ParamsInt. by intros ->. Qed.

Lemma tipo_check t :
  negb (String.eqb (Tipo t) "c") && negb (String.eqb (Tipo t) "d") = false
  ↔ Tipo t = "c" ∨ Tipo t = "d".
Proof.
  destruct (String.eqb_spec (Tipo t) "c") as [Hc|Hc],
           (String.eqb_spec (Tipo t) "d") as [Hd|Hd]; cbn; split;
    auto; try discriminate.
  intros [?|?]; done.
Qed.

(** [handleTransactions] uses the value of [ParamsInt] and nothing of its
    error. *)
Lemma handleTransactions_eq c :
  handleTransactions c =
  match clientExists (clientId_of c) with
  | Some _ => Ret (SendStatus StatusNotFound)
  | None =>
    match Body c with
    | UnmarshalError _ => Ret (SendStatus StatusUnprocessableEntity)
    | UnmarshalNil => Ret Panic
    | Unmarshalled t =>
      if (utf8.RuneCountInString (Descricao t) >? 10)
         || (utf8.RuneCountInString (Descricao t) <? 1)
      then Ret (SendStatus StatusUnprocessableEntity)
      else if negb (String.eqb (Tipo t) "c") && negb (String.eqb (Tipo t) "d")
      then Ret (SendStatus StatusUnprocessableEntity)
      else Exec (Valor t) (Tipo t) (Descricao t) (clientId_of c) (λ err,
        match err with
        | Some _ => Ret (SendStatus StatusUnprocessableEntity)
        | None => QueryRow (clientId_of c) (λ row,
            Ret (SendJSON (BalanceJSON
              match row with
              | Ok (limite, saldo) => {| Saldo := saldo; Limite := limite |}
              | Err _ => Balance_zero
              end)))
        end)
    end
  end.
Proof.
  unfold handleTransactions, clientId_of.
  destruct (ParamsInt (Params_id c)) as [clientId err]. reflexivity.
Qed.

Lemma handleTransactions_not_found c :
  ¬ (1 <= clientId_of c <= 5) → handleTransactions c = Ret (SendStatus StatusNotFound).
Proof. intros H. rewrite handleTransactions_eq, clientExists_Some by done. reflexivity. Qed.

Lemma handleTransactionLog_not_found c :
  ¬ (1 <= clientId_of c <= 5) → handleTransactionLog c = Ret (SendStatus StatusNotFound).
Proof.
  intros H. unfold handleTransactionLog, clientId_of in *.
  destruct (ParamsInt (Params_id c)) as [clientId err]. cbn in H.
  by rewrite clientExists_Some.
Qed.

(** Past the checks there is the insert, and after a successful insert the
    separate read of the balance. *)
Lemma handleTransactions_valid c t :
  well_formed c t →
  handleTransactions c =
    Exec (Valor t) (Tipo t) (Descricao t) (clientId_of c) (λ err,
      match err with
      | Some _ => Ret (SendStatus StatusUnprocessableEntity)
      | None => QueryRow (clientId_of c) (λ row,
          Ret (SendJSON (BalanceJSON
            match row with
            | Ok (limite, saldo) => {| Saldo := saldo; Limite := limite |}
            | Err _ => Balance_zero
            end)))
      end).
Proof.
  intros (Hid & Hb & Hlen & Htipo). rewrite handleTransactions_eq.
  rewrite (proj2 (clientExists_None _)), Hb by done.
  replace ((utf8.RuneCountInString (Descricao t) >? 10)
           || (utf8.RuneCountInString (Descricao t) <? 1)) with false by zbool.
  by rewrite (proj2 (tipo_check t) Htipo).
Qed.

Lemma run_valid {S} (d : Driver S) (s : S) (c : Ctx) (t : TransacaoRequest) :
  well_formed c t →
  run d (handleTransactions c) s =
    match drv_Exec d (Valor t) (Tipo t) (Descricao t) (clientId_of c) s with
    | (Some _, s') => (SendStatus StatusUnprocessableEntity, s')
    | (None, s') =>
        (SendJSON (BalanceJSON
           match drv_QueryRow d (clientId_of c) s' with
           | Ok (limite, saldo) => {| Saldo := saldo; Limite := limite |}
           | Err _ => Balance_zero
           end), s')
    end.
Proof.
  intros Hwf. rewrite (handleTransactions_valid c t Hwf). cbn.
  destruct (drv_Exec d _ _ _ _ s) as [[e|] s']; reflexivity.
Qed.

(** The statuses [handleTransactions] can answer with. *)
Lemma handleTransactions_statuses {S} (d : Driver S) (s : S) (c : Ctx) :
  let status := status_of (run d (handleTransactions c) s).1 in
  status = None ∨ status = Some StatusOK ∨ status = Some StatusNotFound
  ∨ status = Some StatusUnprocessableEntity.
Proof.
  cbv zeta. rewrite handleTransactions_eq.
  destruct (clientExists (clientId_of c)); [cbn; tauto|].
  destruct (Body c) as [e| |t]; [cbn; tauto ..|].
  repeat match goal with |- context [if ?b then _ else _] => destruct b end;
    [cbn; tauto ..|].
  cbn. destruct (drv_Exec d _ _ _ _ s) as [[e|] s']; cbn; tauto.
Qed.

(** ** The client check *)

(** C8: a transaction submitted for a client id outside 1..5 (999, say) is
    answered 404 and changes nothing in storage: the handler returns without
    a single call on the pool, so whatever is behind the pool is left exactly
    as it was, no row inserted and no balance changed. *)
Theorem unknown_client_touches_nothing {S} (d : Driver S) (s : S) (c : Ctx) :
  ¬ (1 <= clientId_of c <= 5) →
  handleTransactions c = Ret (SendStatus StatusNotFound)
  ∧ run d (handleTransactions c) s = (SendStatus StatusNotFound, s).
Proof. intros H. rewrite handleTransactions_not_found by done. done. Qed.

Lemma unknown_client_touches_nothing_witness :
  clientId_of Scenario.unknown999 = 999
  ∧ run pg (handleTransactions Scenario.unknown999) Scenario.db0
    = (SendStatus StatusNotFound, Scenario.db0).
Proof.
  split; [reflexivity|].
  apply (unknown_client_touches_nothing pg Scenario.db0 Scenario.unknown999).
  change (clientId_of Scenario.unknown999) with 999. lia.
Defined.

(** C9: on both endpoints the check of the client is membership in the
    range 1..5 of the number read from the path: a handler answers 404 with
    no call on the pool exactly when that number is outside the range; a
    segment that does not convert reads as 0 (hence 404), and the error of the
    conversion plays no part. *)
Theorem client_check_is_the_range_1_to_5 (c : Ctx) :
  (∀ e, (Atoi (Params_id c)).2 = Some e → clientId_of c = 0)
  ∧ (handleTransactions c = Ret (SendStatus StatusNotFound)
     ↔ ¬ (1 <= clientId_of c <= 5))
  ∧ (handleTransactionLog c = Ret (SendStatus StatusNotFound)
     ↔ ¬ (1 <= clientId_of c <= 5)).
Proof.
  split; [intros e; apply Atoi_error_zero|].
  split; (split; [|by auto using handleTransactions_not_found,
                                 handleTransactionLog_not_found]).
  - intros Heq Hid. rewrite handleTransactions_eq in Heq.
    rewrite (proj2 (clientExists_None _) Hid) in Heq.
    destruct (Body c); try discriminate.
    repeat match type of Heq with (if ?b then _ else _) = _ => destruct b end;
      discriminate.
  - intros Heq Hid. unfold handleTransactionLog, clientId_of in *.
    destruct (ParamsInt (Params_id c)) as [clientId err]. cbn in Hid.
    rewrite (proj2 (clientExists_None _) Hid) in Heq. discriminate.
Qed.

Lemma client_check_is_the_range_1_to_5_witness :
  clientId_of Scenario.not_a_number = 0
  ∧ handleTransactions Scenario.not_a_number = Ret (SendStatus StatusNotFound)
  ∧ handleTransactionLog Scenario.not_a_number = Ret (SendStatus StatusNotFound).
Proof.
  destruct (client_check_is_the_range_1_to_5 Scenario.not_a_number) as (H0 & H1 & H2).
  split; [apply (H0 ErrSyntax); reflexivity|].
  split; [apply H1|apply H2]; change (clientId_of Scenario.not_a_number) with 0; lia.
Defined.

(** What [Atoi] takes for a number: a sign is allowed, so are leading zeros. *)
Example ParamsInt_examples :
  ParamsInt "3" = (3, None) ∧ ParamsInt "+3" = (3, None) ∧ ParamsInt "003" = (3, None)
  ∧ ParamsInt "-1" = (-1, None) ∧ ParamsInt "abc" = (0, Some (ErrConvert ErrSyntax))
  ∧ ParamsInt "3x" = (0, Some (ErrConvert ErrSyntax))
  ∧ ParamsInt "99999999999999999999" = (0, Some (ErrConvert ErrRange)).
Proof. vm_compute. repeat split. Qed.

(** ** The checks on the body *)

Import utf8_facts.

(** C5: the description is accepted exactly when it holds between 1 and 10
    code points, whatever the number of bytes they take: for a request that is
    otherwise in order and whose description is the UTF-8 form of the code
    points [runes], the handler goes on to the insert iff
    [1 <= length runes <= 10], and answers 422 iff not. *)
Theorem description_length_in_code_points (c : Ctx) (t : TransacaoRequest)
    (runes : list Z) :
  1 <= clientId_of c <= 5 →
  Body c = Unmarshalled t →
  Tipo t = "c" ∨ Tipo t = "d" →
  Forall utf8.ValidRune runes →
  Descricao t = utf8.encode runes →
  (reaches_insert (handleTransactions c) = true ↔ (1 <= length runes <= 10)%nat)
  ∧ (handleTransactions c = Ret (SendStatus StatusUnprocessableEntity)
     ↔ ¬ (1 <= length runes <= 10)%nat).
Proof.
  intros Hid Hb Htipo Hv Hd.
  pose proof (RuneCountInString_encode runes Hv) as Hn. rewrite <- Hd in Hn.
  destruct (decide (1 <= length runes <= 10)%nat) as [Hlen|Hlen].
  - rewrite (handleTransactions_valid c t) by (repeat split; (done || lia)).
    cbn. split; split; (done || lia).
  - rewrite handleTransactions_eq, (proj2 (clientExists_None _) Hid), Hb.
    replace ((utf8.RuneCountInString (Descricao t) >? 10)
             || (utf8.RuneCountInString (Descricao t) <? 1)) with true by zbool.
    cbn. split; split; (done || lia).
Qed.

(** Ten times U+00E3 is twenty bytes and is accepted. *)
Lemma description_length_in_code_points_witness :
  length (bytes (utf8.encode (replicate 10 Scenario.a_tilde))) = 20%nat
  ∧ reaches_insert (handleTransactions (Scenario.described 10 Scenario.a_tilde)) = true.
Proof.
  split; [reflexivity|].
  apply (description_length_in_code_points (Scenario.described 10 Scenario.a_tilde)
           {| Valor := 1; Tipo := "c";
              Descricao := utf8.encode (replicate 10 Scenario.a_tilde) |}
           (replicate 10 Scenario.a_tilde)).
  - change (clientId_of _) with 1. lia.
  - reflexivity.
  - left; reflexivity.
  - apply Forall_replicate. unfold utf8.ValidRune. vm_compute. intuition congruence.
  - reflexivity.
  - cbn. lia.
Defined.

(** The boundary, on one-, two-, three- and four-byte code points. *)
Example description_boundary :
  reaches_insert (handleTransactions (Scenario.described 0 Scenario.a_tilde)) = false
  ∧ reaches_insert (handleTransactions (Scenario.described 1 Scenario.euro)) = true
  ∧ reaches_insert (handleTransactions (Scenario.described 10 Scenario.grin)) = true
  ∧ reaches_insert (handleTransactions (Scenario.described 11 97)) = false
  ∧ reaches_insert (handleTransactions (Scenario.described 11 Scenario.a_tilde)) = false
  ∧ reaches_insert (handleTransactions (Scenario.described 4 Scenario.euro)) = true.
Proof. vm_compute. repeat split. Qed.

(** C6: the type is accepted exactly when it is the string "c" or the string
    "d": for a request that is otherwise in order the handler goes on to the
    insert iff [Tipo] is one of the two, and answers 422 iff it is not. *)
Theorem tipo_is_c_or_d (c : Ctx) (t : TransacaoRequest) :
  1 <= clientId_of c <= 5 →
  Body c = Unmarshalled t →
  1 <= utf8.RuneCountInString (Descricao t) <= 10 →
  (reaches_insert (handleTransactions c) = true ↔ Tipo t = "c" ∨ Tipo t = "d")
  ∧ (handleTransactions c = Ret (SendStatus StatusUnprocessableEntity)
     ↔ ¬ (Tipo t = "c" ∨ Tipo t = "d")).
Proof.
  intros Hid Hb Hlen.
  destruct (decide (Tipo t = "c" ∨ Tipo t = "d")) as [Htipo|Htipo].
  - rewrite (handleTransactions_valid c t) by done. cbn. split; split; done.
  - rewrite handleTransactions_eq, (proj2 (clientExists_None _) Hid), Hb.
    replace ((utf8.RuneCountInString (Descricao t) >? 10)
             || (utf8.RuneCountInString (Descricao t) <? 1)) with false by zbool.
    destruct (negb (String.eqb (Tipo t) "c") && negb (String.eqb (Tipo t) "d")) eqn:E.
    + cbn. split; split; done.
    + apply tipo_check in E. done.
Qed.

Lemma tipo_is_c_or_d_witness :
  handleTransactions
    (Scenario.post "1" {| Valor := 1; Tipo := "C"; Descricao := "x" |})
  = Ret (SendStatus StatusUnprocessableEntity).
Proof.
  apply (tipo_is_c_or_d _ {| Valor := 1; Tipo := "C"; Descricao := "x" |}).
  - change (clientId_of _) with 1. lia.
  - reflexivity.
  - vm_compute. intuition congruence.
  - cbn. intros [H|H]; discriminate H.
Defined.

(** A body that does not decode into the struct (an amount with a fraction,
    say, for the [int] field) is answered 422 with no call on the pool. *)
Lemma undecodable_body_is_422 (c : Ctx) (e : error) :
  1 <= clientId_of c <= 5 →
  Body c = UnmarshalError e →
  handleTransactions c = Ret (SendStatus StatusUnprocessableEntity).
Proof.
  intros Hid Hb. by rewrite handleTransactions_eq, (proj2 (clientExists_None _) Hid), Hb.
Qed.

(** The amount is handed to the insert as it is. *)
Lemma amount_goes_to_the_insert (c : Ctx) (t : TransacaoRequest) :
  well_formed c t →
  inserted (handleTransactions c)
  = Some (Valor t, Tipo t, Descricao t, clientId_of c).
Proof. intros Hwf. by rewrite (handleTransactions_valid c t Hwf). Qed.

(** C3, on the code: an amount of zero and a negative amount pass the handler
    and reach the insert.  [{"valor": 0, "tipo": "c", "descricao": "x"}] for
    client 1 is inserted and answered 200; a debit of -700 is inserted too and
    raises the balance by 700. *)
Lemma amount_is_not_examined :
  inserted (handleTransactions Scenario.credit0) = Some (0, "c", "x", 1)
  ∧ (run pg (handleTransactions Scenario.credit0) Scenario.db0).1
    = SendJSON (BalanceJSON {| Saldo := 0; Limite := 1000 |})
  ∧ length (Ledger.transactions (store (serve Scenario.db0 Scenario.credit0))) = 1%nat
  ∧ inserted (handleTransactions Scenario.debit_minus700) = Some (-700, "d", "x", 1)
  ∧ (run pg (handleTransactions Scenario.debit_minus700) Scenario.db0).1
    = SendJSON (BalanceJSON {| Saldo := 700; Limite := 1000 |}).
Proof. vm_compute. repeat split. Qed.

(** With the amount unchecked the store is asked to apply what is no
    transaction of §3: a credit of -5000 takes client 1, limit 1000, to a
    balance of -5000. *)
Example negative_credit_goes_below_the_limit :
  (run pg (handleTransactions Scenario.credit_minus5000) Scenario.db0).1
    = SendJSON (BalanceJSON {| Saldo := -5000; Limite := 1000 |})
  ∧ pg_QueryRow 1 (serve Scenario.db0 Scenario.credit_minus5000) = Ok (1000, -5000).
Proof. vm_compute. split; reflexivity. Qed.

(** ** Failures of the storage *)

(** C4 as stated fails: with the server out of reach the insert fails with
    [StorageUnavailable] and the request is answered 422, not 500. *)
Lemma storage_failure_answers_422 :
  pg_Exec 500 "d" "teste" 1 Scenario.db_down
    = (Some (ErrStore StorageUnavailable), Scenario.db_down)
  ∧ status_of (run pg (handleTransactions Scenario.debit500) Scenario.db_down).1
    = Some StatusUnprocessableEntity
  ∧ status_of (run pg (handleTransactions Scenario.debit500) Scenario.db_down).1
    ≠ Some StatusInternalServerError.
Proof. vm_compute. repeat split; congruence. Qed.

(** C4, amended: whatever makes the insert fail, a refusal by the store or a
    failure of the storage itself, the request is answered 422, the status of
    the validation failures; and no request at all to this endpoint is
    answered 500. *)
Theorem failed_insert_is_422 {S} (d : Driver S) (s s' : S) (c : Ctx)
    (t : TransacaoRequest) (e : error) :
  well_formed c t →
  drv_Exec d (Valor t) (Tipo t) (Descricao t) (clientId_of c) s = (Some e, s') →
  run d (handleTransactions c) s = (SendStatus StatusUnprocessableEntity, s')
  ∧ ∀ (c0 : Ctx) (s0 : S),
      status_of (run d (handleTransactions c0) s0).1 ≠ Some StatusInternalServerError.
Proof.
  intros Hwf Hexec. split.
  - rewrite (run_valid d s c t Hwf), Hexec. reflexivity.
  - intros c0 s0 H. pose proof (handleTransactions_statuses d s0 c0) as Hin.
    cbv zeta in Hin. rewrite H in Hin.
    destruct Hin as [?|[?|[?|?]]]; discriminate.
Qed.

Lemma failed_insert_is_422_witness :
  run pg (handleTransactions Scenario.debit500) Scenario.db_down
  = (SendStatus StatusUnprocessableEntity, Scenario.db_down).
Proof.
  apply (failed_insert_is_422 pg Scenario.db_down Scenario.db_down Scenario.debit500
           {| Valor := 500; Tipo := "d"; Descricao := "teste" |} unavailable).
  - repeat split; [vm_compute; congruence ..|right; reflexivity].
  - reflexivity.
Defined.

(** C10: the error of reading the balance back is dropped.  When the insert
    succeeded and the [SELECT] or its [Scan] fails, the request is answered
    200 with the JSON of the zero [Balance], [limite] 0 and [saldo] 0. *)
Theorem scan_error_is_dropped {S} (d : Driver S) (s s' : S) (c : Ctx)
    (t : TransacaoRequest) (e : error) :
  well_formed c t →
  drv_Exec d (Valor t) (Tipo t) (Descricao t) (clientId_of c) s = (None, s') →
  drv_QueryRow d (clientId_of c) s' = Err e →
  run d (handleTransactions c) s
  = (Respond {| StatusCode := 200; ContentType := Some "application/json";
                ResponseBody := BalanceJSON {| Saldo := 0; Limite := 0 |} |}, s').
Proof.
  intros Hwf Hexec Hrow. rewrite (run_valid d s c t Hwf), Hexec, Hrow. reflexivity.
Qed.

Lemma scan_error_is_dropped_witness :
  (run pg_losing_connection (handleTransactions Scenario.debit500) Scenario.db0).1
  = Respond {| StatusCode := 200; ContentType := Some "application/json";
               ResponseBody := BalanceJSON {| Saldo := 0; Limite := 0 |} |}.
Proof.
  erewrite (scan_error_is_dropped pg_losing_connection Scenario.db0 _ Scenario.debit500
              {| Valor := 500; Tipo := "d"; Descricao := "teste" |} unavailable).
  - reflexivity.
  - repeat split; [vm_compute; congruence ..|right; reflexivity].
  - vm_compute. reflexivity.
  - reflexivity.
Defined.

(** ** The Ledger Store *)

Module Ledger_facts.
Import Ledger.

Lemma applyTransaction_Applied st id amount ty description newBalance lim st' :
  applyTransaction st id amount ty description = (Applied newBalance lim, st') →
  ∃ c, getClient st id = Some c
       ∧ newBalance = balance c + delta ty amount ∧ lim = limit c
       ∧ (ty = Debit → - limit c <= newBalance)
       ∧ getClient st' id = Some {| limit := lim; balance := newBalance |}
       ∧ (∀ id', id' ≠ id → getClient st' id' = getClient st id')
       ∧ transactions st' =
           {| amount := amount; type := ty; description := description;
              client_id := id; occurred_at := clock st |} :: transactions st.
Proof.
  unfold applyTransaction. destruct (getClient st id) as [c|] eqn:Hc; [|discriminate].
  destruct (bool_decide (ty = Debit) && (balance c + delta ty amount <? - limit c))
    eqn:Hcheck; [discriminate|].
  intros [= <- <- <-]. exists c. unfold getClient. cbn.
  repeat split.
  - intros ->. rewrite bool_decide_eq_true_2, andb_true_l in Hcheck by done.
    by apply Z.ltb_ge in Hcheck.
  - apply lookup_insert_eq.
  - intros id' Hne. by apply lookup_insert_ne.
Qed.

Lemma applyTransaction_Refused st id amount ty description e st' :
  applyTransaction st id amount ty description = (Refused e, st') → st' = st.
Proof.
  unfold applyTransaction. destruct (getClient st id) as [c|]; [|congruence].
  destruct (_ && _); congruence.
Qed.


Lemma apply_invariant st t :
  invariant st → 0 < sub_amount t → invariant (apply st t).2.
Proof.
  intros Hinv Hpos. unfold apply.
  destruct (applyTransaction st _ _ _ _) as [[newBalance lim|e] st'] eqn:Happ; cbn.
  - apply applyTransaction_Applied in Happ
      as (c & Hc & -> & -> & Hdebit & Hnew & Hother & _).
    intros id c' Hc'. destruct (decide (id = sub_client t)) as [->|Hne].
    + unfold getClient in Hnew. rewrite Hnew in Hc'. injection Hc' as <-.
      unfold within_limit. cbn. specialize (Hinv _ _ Hc). unfold within_limit in Hinv.
      destruct (sub_type t); cbn in *; [lia|by apply Hdebit].
    + apply (Hinv id). rewrite <- Hc'. symmetry. by apply Hother.
  - by apply applyTransaction_Refused in Happ as ->.
Qed.

Lemma apply_all_invariant ts : ∀ st,
  invariant st → Forall (λ t, 0 < sub_amount t) ts → invariant (apply_all st ts).
Proof.
  induction ts as [|t ts IH]; intros st Hinv Hpos; [done|].
  apply Forall_cons in Hpos as [Ht Hts]. cbn. apply IH; [|done].
  by apply apply_invariant.
Qed.

End Ledger_facts.

(** ** The handler on the store *)

Lemma type_of_tipo_Some tipo ty :
  type_of_tipo tipo = Some ty → tipo_of_type ty = tipo.
Proof.
  unfold type_of_tipo.
  destruct (String.eqb_spec tipo "c") as [->|]; [by intros [= <-]|].
  destruct (String.eqb_spec tipo "d") as [->|]; [by intros [= <-]|done].
Qed.

Lemma pg_Exec_applied db valor tipo descricao id ty newBalance lim st' :
  reachable db = true →
  type_of_tipo tipo = Some ty →
  Ledger.applyTransaction (store db) id valor ty descricao
    = (Ledger.Applied newBalance lim, st') →
  pg_Exec valor tipo descricao id db = (None, {| store := st'; reachable := true |}).
Proof. intros Hr Hty Happ. unfold pg_Exec. by rewrite Hr, Hty, Happ. Qed.





(** The scenario of the spec: client 1 with limit 1000 and balance 0; two
    debits of 500 succeed, the third is refused and the balance stays. *)
Example three_debits_of_500 :
  let db1 := serve Scenario.db0 Scenario.debit500 in
  let db2 := serve db1 Scenario.debit500 in
  (run pg (handleTransactions Scenario.debit500) Scenario.db0).1
    = SendJSON (BalanceJSON {| Saldo := -500; Limite := 1000 |})
  ∧ (run pg (handleTransactions Scenario.debit500) db1).1
    = SendJSON (BalanceJSON {| Saldo := -1000; Limite := 1000 |})
  ∧ run pg (handleTransactions Scenario.debit500) db2
    = (SendStatus StatusUnprocessableEntity, db2)
  ∧ pg_QueryRow 1 db2 = Ok (1000, -1000).
Proof. vm_compute. repeat split. Qed.

(** ** The limit, request after request *)





(** ** The balance in the response *)

(** C2 as stated fails: two debits of 500 for client 1 in flight, both
    inserts committed before either reads the balance back.  The apply of the
    first produced a balance of -500; its response says -1000. *)
Lemma snapshot_reads_another_commit :
  (Ledger.applyTransaction Scenario.store0 1 500 Ledger.Debit "teste").1
    = Ledger.Applied (-500) 1000
  ∧ (interleave pg [true; false]
       (handleTransactions Scenario.debit500) (handleTransactions Scenario.debit500)
       Scenario.db0).1.1
    = SendJSON (BalanceJSON {| Saldo := -1000; Limite := 1000 |}).
Proof. vm_compute. split; reflexivity. Qed.

(** C2, amended: the balance and limit of the response are no value of the
    insert.  Whatever the pool, after an insert that succeeded the handler
    makes one more call, the [SELECT] of the balance, and when that read
    succeeds the response carries what it returned on the state it found.
    When the read is the one of the store, the store is in reach and holds
    what the apply of this very transaction left, nothing else having been
    committed since, the response carries the balance and limit that apply
    produced. *)
Theorem snapshot_is_a_separate_read (c : Ctx) (t : TransacaoRequest) :
  well_formed c t →
  (∀ (S : Type) (d : Driver S) (s s' : S),
     drv_Exec d (Valor t) (Tipo t) (Descricao t) (clientId_of c) s = (None, s') →
     calls d (handleTransactions c) s
     = [CallExec (Valor t) (Tipo t) (Descricao t) (clientId_of c);
        CallQueryRow (clientId_of c)]
     ∧ ∀ limite saldo : Z,
         drv_QueryRow d (clientId_of c) s' = Ok (limite, saldo) →
         run d (handleTransactions c) s
         = (SendJSON (BalanceJSON {| Saldo := saldo; Limite := limite |}), s'))
  ∧ (∀ (d : Driver Database) (db db' : Database) (ty : Ledger.TxType)
       (newBalance lim : Z),
       drv_QueryRow d = pg_QueryRow →
       drv_Exec d (Valor t) (Tipo t) (Descricao t) (clientId_of c) db = (None, db') →
       Ledger.applyTransaction (store db) (clientId_of c) (Valor t) ty (Descricao t)
         = (Ledger.Applied newBalance lim, store db') →
       reachable db' = true →
       run d (handleTransactions c) db
       = (SendJSON (BalanceJSON {| Saldo := newBalance; Limite := lim |}), db')).
Proof.
  intros Hwf. split.
  - intros S d s s' Hexec. split.
    + rewrite (handleTransactions_valid c t Hwf). cbn. by rewrite Hexec.
    + intros limite saldo Hread. by rewrite (run_valid d s c t Hwf), Hexec, Hread.
  - intros d db db' ty newBalance lim Hq Hexec Happ Hr.
    rewrite (run_valid d db c t Hwf), Hexec, Hq.
    apply Ledger_facts.applyTransaction_Applied in Happ as (c0 & _ & _ & _ & _ & Hnew & _).
    unfold pg_QueryRow. rewrite Hr. cbn. by rewrite Hnew.
Qed.

Lemma snapshot_is_a_separate_read_witness :
  run pg (handleTransactions Scenario.debit500) Scenario.db0
  = (SendJSON (BalanceJSON {| Saldo := -500; Limite := 1000 |}),
     serve Scenario.db0 Scenario.debit500).
Proof.
  destruct (snapshot_is_a_separate_read Scenario.debit500
              {| Valor := 500; Tipo := "d"; Descricao := "teste" |}) as [_ Hstore].
  - repeat split; [vm_compute; congruence ..|right; reflexivity].
  - apply (Hstore pg Scenario.db0 _ Ledger.Debit).
    + reflexivity.
    + vm_compute. reflexivity.
    + vm_compute. reflexivity.
    + reflexivity.
Defined.

(** ** The statement *)

Module Order_facts.
Import Ledger.

Lemma insert_desc_perm t l : insert_desc t l ≡ₚ t :: l.
Proof.
  induction l as [|u l IH]; [done|]. cbn.
  destruct (occurred_at u <=? occurred_at t); [done|].
  rewrite IH. apply Permutation_swap.
Qed.

Lemma insert_desc_sorted t l :
  StronglySorted newer_first l → StronglySorted newer_first (insert_desc t l).
Proof.
  induction l as [|u l IH]; intros Hs; cbn.
  { repeat constructor. }
  apply StronglySorted_cons in Hs as [Hu Hl].
  destruct (Z.leb_spec (occurred_at u) (occurred_at t)) as [Hle|Hgt].
  - apply StronglySorted_cons. split; [|by apply StronglySorted_cons].
    constructor; [done|]. eapply Forall_impl; [exact Hu|].
    unfold newer_first. intros x Hx. lia.
  - apply StronglySorted_cons. split; [|by apply IH].
    rewrite insert_desc_perm. constructor; [unfold newer_first; lia|done].
Qed.

Lemma order_desc_perm l : order_desc l ≡ₚ l.
Proof.
  induction l as [|t l IH]; [done|]. cbn. rewrite insert_desc_perm. by f_equiv.
Qed.

Lemma order_desc_sorted l : StronglySorted newer_first (order_desc l).
Proof.
  induction l as [|t l IH]; [constructor|]. cbn. by apply insert_desc_sorted.
Qed.

Lemma take_sorted {A} (R : relation A) n (l : list A) :
  StronglySorted R l → StronglySorted R (take n l).
Proof.
  intros Hs. rewrite <- (take_drop n l) in Hs. by apply StronglySorted_app_1_l in Hs.
Qed.

Lemma getRecentTransactions_spec st id n :
  (length (getRecentTransactions st id n) <= n)%nat
  ∧ StronglySorted newer_first (getRecentTransactions st id n)
  ∧ Forall (λ t, t ∈ transactions st ∧ client_id t = id) (getRecentTransactions st id n).
Proof.
  unfold getRecentTransactions. split; [rewrite length_take; lia|].
  split; [apply take_sorted, order_desc_sorted|].
  apply Forall_take. rewrite order_desc_perm. apply Forall_forall.
  intros t Ht. by apply list_elem_of_filter in Ht as [? ?].
Qed.

(** What is left out is no newer than what is shown. *)
Lemma getRecentTransactions_most_recent st id n t u :
  t ∈ getRecentTransactions st id n →
  u ∈ transactions st → client_id u = id →
  u ∉ getRecentTransactions st id n →
  newer_first t u.
Proof.
  unfold getRecentTransactions.
  set (l := order_desc (filter (λ t, client_id t = id) (transactions st))).
  intros Ht Hu Hid Hnot.
  assert (Hin : u ∈ l).
  { unfold l. rewrite order_desc_perm. by apply list_elem_of_filter. }
  rewrite <- (take_drop n l) in Hin. apply elem_of_app in Hin as [Hin|Hin]; [done|].
  pose proof (order_desc_sorted (filter (λ t, client_id t = id) (transactions st))) as Hs.
  fold l in Hs. rewrite <- (take_drop n l) in Hs.
  by apply (StronglySorted_app_1_elem_of _ _ _ _ _ Hs).
Qed.

(** Applied transactions and the passing of time keep the table in the
    order of insertion, timestamps non-decreasing. *)
Lemma occur_chronological st ev : chronological st → chronological (occur st ev).
Proof.
  intros [Hs Hc]. destruct ev as [t|dt]; cbn.
  - unfold apply, applyTransaction. destruct (getClient st (sub_client t)) as [c|]; [|done].
    destruct (_ && _); [done|]. cbn. split; cbn.
    + apply StronglySorted_cons. split; [|done]. exact Hc.
    + constructor; [cbn; lia|done].
  - split; [done|]. cbn. eapply Forall_impl; [exact Hc|]. cbn. intros x Hx. lia.
Qed.

Lemma occur_all_chronological evs : ∀ st,
  chronological st → chronological (foldl occur st evs).
Proof.
  induction evs as [|ev evs IH]; intros st Hst; [done|].
  cbn. by apply IH, occur_chronological.
Qed.

(** On a table in that order the sort has nothing to do: the statement shows
    the rows of the client as they are stored, most recently inserted first. *)
Lemma order_desc_sorted_id l : StronglySorted newer_first l → order_desc l = l.
Proof.
  induction 1 as [|t l Hl IH Ht]; [done|].
  change (order_desc (t :: l)) with (insert_desc t (order_desc l)). rewrite IH.
  destruct l as [|u l']; [done|]. cbn.
  apply Forall_cons in Ht as [Hu _]. unfold newer_first in Hu.
  by destruct (Z.leb_spec (occurred_at u) (occurred_at t)); [|lia].
Qed.

Lemma filter_sorted {A} (R : relation A) (P : A → Prop) `{∀ x, Decision (P x)} l :
  StronglySorted R l → StronglySorted R (filter P l).
Proof.
  induction 1 as [|x l Hl IH Hx]; [constructor|].
  rewrite filter_cons. destruct (decide (P x)); [|done].
  constructor; [done|]. apply Forall_forall. intros y Hy.
  apply list_elem_of_filter in Hy as [_ Hy]. rewrite Forall_forall in Hx. by apply Hx.
Qed.

Lemma getRecentTransactions_chronological st id n :
  chronological st →
  getRecentTransactions st id n
  = take n (filter (λ t, client_id t = id) (transactions st)).
Proof.
  intros [Hs _]. unfold getRecentTransactions.
  rewrite order_desc_sorted_id; [done|]. by apply filter_sorted.
Qed.

End Order_facts.

Lemma scan_rows_Ok (rows acc : list Transacao) :
  scan_rows (Ok <$> rows) acc = Ok (acc ++ rows).
Proof.
  revert acc. induction rows as [|t rows IH]; intros acc; cbn.
  - by rewrite app_nil_r.
  - rewrite IH. by rewrite <- app_assoc.
Qed.

(** The list of a statement is empty (for every answer other than 200) or the
    ten most recent rows of the client. *)
Lemma run_handleTransactionLog (db : Database) (c : Ctx) :
  transactions_of (run pg (handleTransactionLog c) db).1 = []
  ∨ transactions_of (run pg (handleTransactionLog c) db).1
    = row_of <$> Ledger.getRecentTransactions (store db) (clientId_of c) 10.
Proof.
  unfold handleTransactionLog, clientId_of.
  destruct (ParamsInt (Params_id c)) as [clientId err]. cbn [fst].
  destruct (clientExists clientId); [by left|].
  cbn [run drv_Query pg]. unfold pg_Query.
  destruct (reachable db) eqn:Hr; cbn [negb]; [|by left].
  cbn [run drv_QueryRow pg]. unfold pg_QueryRow. rewrite Hr. cbn [negb].
  destruct (Ledger.getClient (store db) clientId) as [cl|]; [|by left].
  rewrite (list_fmap_compose row_of Ok), scan_rows_Ok. cbn [app run drv_Now pg].
  destruct (Marshal_TransactionLog _) as [b|e] eqn:HM; [|by left].
  unfold Marshal_TransactionLog in HM. destruct (_ && _); [|discriminate].
  injection HM as <-. by right.
Qed.

(** A reachable database, a provisioned client and dates that JSON can hold:
    the statement is answered 200 with the balance, the limit, the time of
    the server and the ten most recent transactions. *)
Lemma statement_is_answered (db : Database) (c : Ctx) (cl : Ledger.Client) :
  reachable db = true →
  1 <= clientId_of c <= 5 →
  Ledger.getClient (store db) (clientId_of c) = Some cl →
  Time_MarshalJSON_ok (Ledger.clock (store db)) = true →
  Forall (λ t, Time_MarshalJSON_ok (Ledger.occurred_at t) = true)
         (Ledger.transactions (store db)) →
  run pg (handleTransactionLog c) db
  = (SendJSON (TransactionLogJSON
       {| TransactionLog_Saldo :=
            {| Total := Ledger.balance cl; DataExtrato := Ledger.clock (store db);
               BalanceResponse_Limite := Ledger.limit cl |};
          UltimasTransacoes :=
            row_of <$> Ledger.getRecentTransactions (store db) (clientId_of c) 10 |}),
     db).
Proof.
  intros Hr Hid Hcl Hclock Htimes. unfold handleTransactionLog, clientId_of in *.
  destruct (ParamsInt (Params_id c)) as [clientId err]. cbn [fst] in *.
  rewrite (proj2 (clientExists_None _) Hid).
  cbn [run drv_Query pg]. unfold pg_Query. rewrite Hr. cbn [negb].
  cbn [run drv_QueryRow pg]. unfold pg_QueryRow. rewrite Hr, Hcl. cbn [negb].
  rewrite (list_fmap_compose row_of Ok), scan_rows_Ok. cbn [app run drv_Now pg].
  unfold Marshal_TransactionLog. cbn [DataExtrato TransactionLog_Saldo UltimasTransacoes].
  rewrite Hclock. cbn [andb].
  replace (forallb _ _) with true; [done|]. symmetry. apply forallb_forall.
  intros x Hx. apply list_elem_of_In, list_elem_of_fmap in Hx as (t & -> & Ht).
  destruct (Order_facts.getRecentTransactions_spec (store db) clientId 10) as (_ & _ & Hall).
  rewrite Forall_forall in Hall. destruct (Hall t Ht) as [Hin _].
  rewrite Forall_forall in Htimes. exact (Htimes t Hin).
Qed.

(** C7: the list of recent transactions in a statement has at most 10
    entries, each a transaction of that client, ordered by [realizada_em]
    non-increasing, the most recent first. *)
Theorem statement_lists_ten_most_recent_first (db : Database) (c : Ctx) :
  let l := transactions_of (run pg (handleTransactionLog c) db).1 in
  (length l <= 10)%nat
  ∧ StronglySorted most_recent_first l
  ∧ Forall (λ t, ∃ row, row ∈ Ledger.transactions (store db)
                        ∧ Ledger.client_id row = clientId_of c ∧ t = row_of row) l.
Proof.
  cbv zeta. destruct (run_handleTransactionLog db c) as [-> | ->].
  { repeat split; [cbn; lia|constructor|constructor]. }
  destruct (Order_facts.getRecentTransactions_spec (store db) (clientId_of c) 10)
    as (Hlen & Hsorted & Hall).
  split; [by rewrite length_fmap|]. split.
  - eapply StronglySorted_fmap; [|exact Hsorted]. by intros x y.
  - apply Forall_fmap. eapply Forall_impl; [exact Hall|].
    intros row [Hin Hid]. by exists row.
Qed.

(** Twelve transactions of the client and one of another: the ten most
    recent, ties in the order of the table. *)
Example statement_of_a_busy_client :
  status_of (run pg (handleTransactionLog Scenario.statement1) Scenario.busy).1
    = Some StatusOK
  ∧ Transacao_Valor <$> transactions_of
      (run pg (handleTransactionLog Scenario.statement1) Scenario.busy).1
    = [4; 9; 2; 11; 6; 7; 12; 1; 10; 5]
  ∧ Transacao_RealizadaEm <$> transactions_of
      (run pg (handleTransactionLog Scenario.statement1) Scenario.busy).1
    = [12; 11; 9; 8; 7; 7; 6; 5; 4; 3].
Proof. vm_compute. repeat split. Qed.

(** * More of main.go *)

(** ** What [handleTransactions] asks of the pool *)

Lemma reaches_insert_well_formed (c : Ctx) :
  reaches_insert (handleTransactions c) = true ↔ ∃ t, well_formed c t.
Proof.
  split.
  - rewrite handleTransactions_eq.
    destruct (clientExists (clientId_of c)) eqn:Hid; [discriminate|].
    apply clientExists_None in Hid.
    destruct (Body c) as [e| |t] eqn:Hb; [discriminate ..|].
    destruct (_ || _) eqn:Hlen; [discriminate|].
    destruct (negb _ && negb _) eqn:Htipo; [discriminate|].
    intros _. exists t. split; [done|]. split; [done|]. split; [|by apply tipo_check].
    apply orb_false_iff in Hlen as [H1 H2]. rewrite Z.gtb_ltb in H1.
    apply Z.ltb_ge in H1, H2. lia.
  - intros [t Hwf]. by rewrite (handleTransactions_valid c t Hwf).
Qed.

(** A request that is not well formed is answered on the spot. *)
Lemma handleTransactions_rejected (c : Ctx) :
  (¬ ∃ t, well_formed c t) → ∃ o, handleTransactions c = Ret o.
Proof.
  intros Hnot. pose proof (reaches_insert_well_formed c) as [Hreach _].
  rewrite handleTransactions_eq in *.
  destruct (clientExists (clientId_of c)); [eauto|].
  destruct (Body c) as [e| |t]; [eauto ..|].
  destruct (_ || _); [eauto|]. destruct (negb _ && negb _); [eauto|].
  destruct Hnot. by apply Hreach.
Qed.

(** X1: [handleTransactions] goes as far as the insert exactly when the
    request passes all four checks (client id in 1..5, a body that decodes,
    a description of 1 to 10 runes, a type "c" or "d"), and the insert then
    carries the amount, type and description of the body and the id of the
    path, unchanged. *)
Theorem insert_iff_well_formed (c : Ctx) :
  (reaches_insert (handleTransactions c) = true ↔ ∃ t, well_formed c t)
  ∧ ∀ t, well_formed c t →
      inserted (handleTransactions c)
      = Some (Valor t, Tipo t, Descricao t, clientId_of c).
Proof.
  split; [split|].
  - intros Hreach. rewrite handleTransactions_eq in Hreach.
    destruct (clientExists (clientId_of c)) eqn:Hid; [discriminate|].
    apply clientExists_None in Hid.
    destruct (Body c) as [e| |t] eqn:Hb; [discriminate ..|].
    destruct (_ || _) eqn:Hlen; [discriminate|].
    destruct (negb _ && negb _) eqn:Htipo; [discriminate|].
    exists t. split; [done|]. split; [done|]. split; [|by apply tipo_check].
    apply orb_false_iff in Hlen as [H1 H2]. rewrite Z.gtb_ltb in H1.
    apply Z.ltb_ge in H1, H2. lia.
  - intros [t Hwf]. by rewrite (handleTransactions_valid c t Hwf).
  - intros t Hwf. by rewrite (handleTransactions_valid c t Hwf).
Qed.

Lemma insert_iff_well_formed_witness :
  reaches_insert (handleTransactions Scenario.debit500) = true
  ∧ inserted (handleTransactions Scenario.debit500) = Some (500, "d", "teste", 1).
Proof.
  destruct (insert_iff_well_formed Scenario.debit500) as [Hiff Hins].
  assert (Hwf : well_formed Scenario.debit500
                  {| Valor := 500; Tipo := "d"; Descricao := "teste" |}).
  { repeat split; [vm_compute; congruence ..|right; reflexivity]. }
  split; [apply Hiff; eauto|apply (Hins _ Hwf)].
Defined.

(** X2: a request to [handleTransactions] makes at most one insert.  A
    well-formed request makes the insert and, only when it succeeded, one read
    of the balance after it; the state it leaves is the one the insert left.
    Any other request makes no call on the pool and leaves the state as it
    was. *)
Theorem handleTransactions_calls {S} (d : Driver S) (s : S) (c : Ctx) :
  (∀ t, well_formed c t →
     calls d (handleTransactions c) s
     = CallExec (Valor t) (Tipo t) (Descricao t) (clientId_of c)
       :: match (drv_Exec d (Valor t) (Tipo t) (Descricao t) (clientId_of c) s).1 with
          | None => [CallQueryRow (clientId_of c)]
          | Some _ => []
          end
     ∧ (run d (handleTransactions c) s).2
       = (drv_Exec d (Valor t) (Tipo t) (Descricao t) (clientId_of c) s).2)
  ∧ ((¬ ∃ t, well_formed c t) →
     calls d (handleTransactions c) s = [] ∧ (run d (handleTransactions c) s).2 = s).
Proof.
  split.
  - intros t Hwf. rewrite (handleTransactions_valid c t Hwf). cbn.
    destruct (drv_Exec d _ _ _ _ s) as [[e|] s']; done.
  - intros Hnot. by destruct (handleTransactions_rejected c Hnot) as [o ->].
Qed.

Lemma handleTransactions_calls_witness :
  calls pg (handleTransactions Scenario.debit500) Scenario.db0
  = [CallExec 500 "d" "teste" 1; CallQueryRow 1].
Proof.
  destruct (handleTransactions_calls pg Scenario.db0 Scenario.debit500) as [H _].
  assert (Hwf : well_formed Scenario.debit500
                  {| Valor := 500; Tipo := "d"; Descricao := "teste" |}).
  { repeat split; [vm_compute; congruence ..|right; reflexivity]. }
  exact (proj1 (H _ Hwf)).
Defined.

(** ** The description, in bytes *)

Module utf8_bounds.
Import utf8 utf8_facts.

Lemma advance_le_4 c s : advance c s <= 4.
Proof.
  unfold advance, RuneSelf. destruct (Z.ltb_spec c 128); [lia|].
  assert (Hc : first c ∈ [xx; s1; s2; s3; s4; s5; s6; s7]).
  { unfold first. zbool; set_solver. }
  cbv zeta. generalize dependent (first c). intros x Hx.
  repeat (apply elem_of_cons in Hx as [->|Hx]); [..|by apply elem_of_nil in Hx].
  all: repeat match goal with
       | |- context [if ?b then _ else _] => destruct b
       end; vm_compute; congruence.
Qed.

(** Each turn of the loop takes between one and four bytes. *)
Lemma count_loop_bounds iterations : ∀ s n,
  (length s <= iterations)%nat →
  Z.of_nat (length s) <= 4 * (count_loop iterations s n - n)
  ∧ count_loop iterations s n - n <= Z.of_nat (length s).
Proof.
  induction iterations as [|iterations IH]; intros s n Hlen.
  { destruct s; [cbn; lia|cbn in Hlen; lia]. }
  destruct s as [|c s']; [cbn; lia|].
  cbn [count_loop].
  pose proof (advance_pos c (c :: s')) as Hpos.
  pose proof (advance_le_4 c (c :: s')) as Hle.
  set (k := Z.to_nat (advance c (c :: s'))) in *.
  assert (Hdrop : length (drop k (c :: s')) = (length (c :: s') - k)%nat)
    by apply length_drop.
  cbn [length] in *.
  destruct (IH (drop k (c :: s')) (n + 1)) as [H1 H2]; [lia|].
  lia.
Qed.

Lemma length_bytes s : length (bytes s) = String.length s.
Proof. induction s as [|a s IH]; [done|]. cbn. by rewrite IH. Qed.

(** Whatever the bytes, valid UTF-8 or not: no more runes than bytes, and no
    fewer than a quarter of them. *)
Lemma RuneCountInString_bounds s :
  Z.of_nat (String.length s) <= 4 * RuneCountInString s
  ∧ RuneCountInString s <= Z.of_nat (String.length s).
Proof.
  unfold RuneCountInString. rewrite <- length_bytes.
  pose proof (count_loop_bounds (length (bytes s)) (bytes s) 0). lia.
Qed.

End utf8_bounds.

(** X7: whatever bytes the description holds, valid UTF-8 or not, a
    description of 1 to 10 bytes passes the length check, and an empty one or
    one of more than 40 bytes is answered 422 (a rune takes between one and
    four bytes). *)
Theorem description_length_in_bytes (c : Ctx) (t : TransacaoRequest) :
  1 <= clientId_of c <= 5 →
  Body c = Unmarshalled t →
  Tipo t = "c" ∨ Tipo t = "d" →
  ((1 <= String.length (Descricao t) <= 10)%nat →
     reaches_insert (handleTransactions c) = true)
  ∧ ((String.length (Descricao t) = 0 ∨ 40 < String.length (Descricao t))%nat →
     handleTransactions c = Ret (SendStatus StatusUnprocessableEntity)).
Proof.
  intros Hid Hb Htipo.
  pose proof (utf8_bounds.RuneCountInString_bounds (Descricao t)) as [Hlo Hhi].
  split.
  - intros Hlen. rewrite (handleTransactions_valid c t); [done|].
    repeat split; try done; lia.
  - intros Hlen. rewrite handleTransactions_eq, (proj2 (clientExists_None _) Hid), Hb.
    replace ((utf8.RuneCountInString (Descricao t) >? 10)
             || (utf8.RuneCountInString (Descricao t) <? 1)) with true; [done|].
    symmetry. apply orb_true_iff. rewrite Z.gtb_ltb, !Z.ltb_lt. lia.
Qed.

(** Eleven times U+1F600 is 44 bytes. *)
Lemma description_length_in_bytes_witness :
  String.length (utf8.encode (replicate 11 Scenario.grin)) = 44%nat
  ∧ handleTransactions (Scenario.described 11 Scenario.grin)
    = Ret (SendStatus StatusUnprocessableEntity).
Proof.
  split; [reflexivity|].
  apply (description_length_in_bytes (Scenario.described 11 Scenario.grin)
           {| Valor := 1; Tipo := "c";
              Descricao := utf8.encode (replicate 11 Scenario.grin) |}).
  - change (clientId_of _) with 1. lia.
  - reflexivity.
  - left; reflexivity.
  - right. cbn. lia.
Defined.

(** ** The path segment *)

Module Atoi_facts.

Lemma byte_of_inj a b : byte_of a = b → a = ascii_of_N (Z.to_N b).
Proof. unfold byte_of. intros <-. by rewrite N2Z.id, ascii_N_embedding. Qed.

Lemma byte_of_char b : 0 <= b < 256 → byte_of (ascii_of_N (Z.to_N b)) = b.
Proof. intros Hb. unfold byte_of. rewrite N_ascii_embedding by lia. lia. Qed.

Lemma digit_of_Some a d : digit_of a = Some d ↔ 0 <= d <= 9 ∧ a = digit_char d.
Proof.
  unfold digit_of, digit_char. split.
  - destruct (_ && _) eqn:E; [|done]. intros [= <-].
    apply andb_true_iff in E as [E1 E2]. apply Z.leb_le in E1, E2.
    split; [lia|]. apply byte_of_inj. lia.
  - intros [Hd ->]. rewrite byte_of_char by lia.
    replace ((48 <=? 48 + d) && (48 + d <=? 57)) with true; [f_equal; lia|].
    symmetry. apply andb_true_iff. rewrite !Z.leb_le. lia.
Qed.

(** Every further digit multiplies by ten. *)
Lemma parse_digits_ge s : ∀ acc n,
  0 <= acc → parse_digits acc s = Some n →
  acc <= n ∧ (s ≠ EmptyString → 10 * acc <= n).
Proof.
  induction s as [|a s IH]; intros acc n Hacc; cbn.
  - intros [= <-]. split; [lia|done].
  - destruct (digit_of a) as [d|] eqn:Hd; [|done].
    apply digit_of_Some in Hd as [Hd _]. intros Hp.
    apply IH in Hp as [Hp _]; [|lia]. split; [lia|]. intros _. lia.
Qed.

Lemma parse_digits_zeros k d : 0 <= d <= 9 →
  parse_digits 0 (zeros k (String (digit_char d) EmptyString)) = Some d.
Proof.
  intros Hd. induction k as [|k IH]; cbn.
  - by rewrite (proj2 (digit_of_Some _ d)).
  - cbn [zeros parse_digits]. change (digit_of "0") with (Some 0). exact IH.
Qed.

(** Digits that read as a number from 1 to 5: zeros and then that digit. *)
Lemma parse_digits_small s : ∀ n,
  parse_digits 0 s = Some n → 1 <= n <= 5 →
  ∃ k, s = zeros k (String (digit_char n) EmptyString).
Proof.
  induction s as [|a s IH]; intros n; cbn.
  - intros [= <-]. lia.
  - destruct (digit_of a) as [d|] eqn:Hd; [|done].
    apply digit_of_Some in Hd as [Hd ->]. intros Hp Hn.
    destruct (decide (d = 0)) as [->|Hd0].
    + destruct (IH n Hp Hn) as [k ->]. by exists (S k).
    + destruct s as [|b s].
      * cbn in Hp. injection Hp as <-. by exists O.
      * apply parse_digits_ge in Hp as [_ Hp]; [|lia]. specialize (Hp ltac:(done)). lia.
Qed.

Lemma zeros_nonempty k s : s ≠ EmptyString → zeros k s ≠ EmptyString.
Proof. by destruct k. Qed.

Lemma Atoi_segment plus k d : 1 <= d <= 5 → Atoi (segment plus k d) = (d, None).
Proof.
  intros Hd. unfold Atoi.
  assert (Hp : parse_decimal (segment plus k d) = Some d).
  { unfold segment. destruct plus.
    - cbn -[zeros]. pose proof (zeros_nonempty k (String (digit_char d) EmptyString)).
      destruct (zeros k _) eqn:Hz; [by destruct H|].
      rewrite <- Hz. apply parse_digits_zeros. lia.
    - rewrite <- (parse_digits_zeros k d) by lia. unfold parse_decimal.
      destruct k as [|k]; cbn [zeros].
      + unfold digit_char. rewrite byte_of_char by lia.
        destruct (Z.eqb_spec (48 + d) 45); [lia|].
        destruct (Z.eqb_spec (48 + d) 43); [lia|done].
      + done. }
  rewrite Hp. unfold maxInt64, minInt64.
  destruct (Z.ltb_spec (2 ^ 63 - 1) d); [lia|]. rewrite Z.gtb_ltb.
  destruct (Z.ltb_spec (2 ^ 63 - 1) d); [lia|].
  destruct (Z.ltb_spec d (- 2 ^ 63)); [lia|done].
Qed.

End Atoi_facts.

(** X8: the handlers take a path segment for client [d], [d] from 1 to 5,
    exactly when the segment is an optional plus sign, any number of zeros
    and the digit [d]: "3", "+3" and "003" are client 3; a minus sign, a
    space, a second digit other than leading zeros or any other character
    make it another number or no number, and, with C9, a 404. *)
Theorem accepted_path_segments (c : Ctx) (d : Z) :
  1 <= d <= 5 →
  (clientId_of c = d ↔ ∃ plus k, Params_id c = segment plus k d).
Proof.
  intros Hd. split.
  - unfold clientId_of, ParamsInt, Atoi. intros Hid.
    destruct (parse_decimal (Params_id c)) as [n|] eqn:Hp; [|cbn in Hid; lia].
    assert (Hn : n = d).
    { revert Hid. rewrite Z.gtb_ltb. unfold maxInt64, minInt64.
      destruct (Z.ltb_spec (2 ^ 63 - 1) n); [cbn; lia|].
      destruct (Z.ltb_spec n (- 2 ^ 63)); [cbn; lia|done]. }
    subst n. unfold parse_decimal in Hp. destruct (Params_id c) as [|a s]; [done|].
    destruct (Z.eqb_spec (byte_of a) 45) as [Hminus|_].
    { destruct s as [|b s]; [done|].
      destruct (parse_digits 0 (String b s)) as [m|] eqn:Hm; [|done].
      apply Atoi_facts.parse_digits_ge in Hm as [Hm _]; [|lia]. injection Hp as Hp. lia. }
    destruct (Z.eqb_spec (byte_of a) 43) as [Hplus|_].
    { destruct s as [|b s]; [done|].
      destruct (Atoi_facts.parse_digits_small _ _ Hp Hd) as [k Hs].
      exists true, k. unfold segment. rewrite <- Hs. f_equal.
      by apply Atoi_facts.byte_of_inj in Hplus as ->. }
    destruct (Atoi_facts.parse_digits_small _ _ Hp Hd) as [k Hs].
    exists false, k. done.
  - intros (plus & k & Hs). unfold clientId_of, ParamsInt.
    by rewrite Hs, Atoi_facts.Atoi_segment.
Qed.

Lemma accepted_path_segments_witness :
  clientId_of (Scenario.post "+003" {| Valor := 1; Tipo := "c"; Descricao := "x" |}) = 3.
Proof.
  apply (accepted_path_segments _ 3); [lia|].
  exists true, 2%nat. reflexivity.
Defined.

(** ** The statement, call by call *)

(** [handleTransactionLog] past the client check. *)
Lemma handleTransactionLog_eq c :
  1 <= clientId_of c <= 5 →
  handleTransactionLog c =
  Query (clientId_of c) (λ rows,
    match rows with
    | Err _ => Ret (SendStatus StatusUnprocessableEntity)
    | Ok rows =>
      QueryRow (clientId_of c) (λ row,
        match row with
        | Err _ => Ret (SendStatus StatusInternalServerError)
        | Ok (limite, saldo) =>
          match scan_rows rows [] with
          | Err _ => Ret (SendStatus StatusBadRequest)
          | Ok transactions =>
            Now (λ now,
              match Marshal_TransactionLog
                      {| TransactionLog_Saldo :=
                           {| Total := saldo; BalanceResponse_Limite := limite;
                              DataExtrato := now |};
                         UltimasTransacoes := transactions |} with
              | Err _ => Ret (SendStatus StatusInternalServerError)
              | Ok jsonResponse => Ret (SendJSON jsonResponse)
              end)
          end
        end)
    end).
Proof.
  intros Hid. unfold handleTransactionLog, clientId_of in *.
  destruct (ParamsInt (Params_id c)) as [clientId err]. cbn [fst] in *.
  by rewrite (proj2 (clientExists_None _) Hid).
Qed.

Lemma run_handleTransactionLog_eq {S} (d : Driver S) (s : S) (c : Ctx) :
  1 <= clientId_of c <= 5 →
  run d (handleTransactionLog c) s =
  (match drv_Query d (clientId_of c) s with
   | Err _ => SendStatus StatusUnprocessableEntity
   | Ok rows =>
     match drv_QueryRow d (clientId_of c) s with
     | Err _ => SendStatus StatusInternalServerError
     | Ok (limite, saldo) =>
       match scan_rows rows [] with
       | Err _ => SendStatus StatusBadRequest
       | Ok transactions =>
         match Marshal_TransactionLog
                 {| TransactionLog_Saldo :=
                      {| Total := saldo; BalanceResponse_Limite := limite;
                         DataExtrato := drv_Now d s |};
                    UltimasTransacoes := transactions |} with
         | Err _ => SendStatus StatusInternalServerError
         | Ok jsonResponse => SendJSON jsonResponse
         end
       end
     end
   end, s).
Proof.
  intros Hid. rewrite (handleTransactionLog_eq c Hid). cbn.
  destruct (drv_Query d _ s) as [rows|e]; [|done]. cbn.
  destruct (drv_QueryRow d _ s) as [[limite saldo]|e]; [|done].
  destruct (scan_rows rows []) as [transactions|e]; [|done]. cbn.
  destruct (Marshal_TransactionLog _); done.
Qed.

(** X3: a statement only reads.  Under every driver [handleTransactionLog]
    leaves the state as it found it and never inserts: it makes no call for an
    id outside 1..5, the query of the transactions alone when that query
    fails, and otherwise that query followed by the read of the balance,
    which is made even when a row will not scan. *)
Theorem statement_only_reads {S} (d : Driver S) (s : S) (c : Ctx) :
  (run d (handleTransactionLog c) s).2 = s
  ∧ calls d (handleTransactionLog c) s
    = if bool_decide (1 <= clientId_of c <= 5) then
        match drv_Query d (clientId_of c) s with
        | Err _ => [CallQuery (clientId_of c)]
        | Ok _ => [CallQuery (clientId_of c); CallQueryRow (clientId_of c)]
        end
      else [].
Proof.
  case_bool_decide as Hid.
  - rewrite (handleTransactionLog_eq c Hid). cbn.
    destruct (drv_Query d _ s) as [rows|e]; [|done]. cbn.
    destruct (drv_QueryRow d _ s) as [[limite saldo]|e]; [|done].
    destruct (scan_rows rows []) as [transactions|e]; [|done]. cbn.
    destruct (Marshal_TransactionLog _); done.
  - by rewrite (handleTransactionLog_not_found c Hid).
Qed.

(** X4: when both reads succeed, every row scans and the dates fit JSON, the
    statement is answered 200 with exactly what was read: [total] is the
    [saldo] column and [limite] the [limite] column of the client's row,
    [data_extrato] is the clock, and [ultimas_transacoes] holds the rows of
    the query, all of them, in the order the query returned them. *)
Theorem statement_shows_what_was_read {S} (d : Driver S) (s : S) (c : Ctx)
    (transactions : list Transacao) (limite saldo : Z) :
  1 <= clientId_of c <= 5 →
  drv_Query d (clientId_of c) s = Ok (Ok <$> transactions) →
  drv_QueryRow d (clientId_of c) s = Ok (limite, saldo) →
  Time_MarshalJSON_ok (drv_Now d s) = true →
  Forall (λ t, Time_MarshalJSON_ok (Transacao_RealizadaEm t) = true) transactions →
  run d (handleTransactionLog c) s
  = (Respond {| StatusCode := 200; ContentType := Some "application/json";
                ResponseBody := TransactionLogJSON
                  {| TransactionLog_Saldo :=
                       {| Total := saldo; DataExtrato := drv_Now d s;
                          BalanceResponse_Limite := limite |};
                     UltimasTransacoes := transactions |} |}, s).
Proof.
  intros Hid Hq Hr Hnow Htimes. rewrite (run_handleTransactionLog_eq d s c Hid).
  rewrite Hq, Hr, scan_rows_Ok. cbn [app]. unfold Marshal_TransactionLog.
  cbn [DataExtrato TransactionLog_Saldo UltimasTransacoes]. rewrite Hnow. cbn [andb].
  replace (forallb _ _) with true; [done|]. symmetry. apply forallb_forall.
  intros t Ht. apply list_elem_of_In in Ht. rewrite Forall_forall in Htimes. by apply Htimes.
Qed.

Lemma statement_shows_what_was_read_witness :
  Transacao_Valor <$> transactions_of
    (run pg (handleTransactionLog Scenario.statement1) Scenario.busy).1
  = [4; 9; 2; 11; 6; 7; 12; 1; 10; 5].
Proof.
  assert (H1 : 1 <= clientId_of Scenario.statement1 <= 5).
  { change (clientId_of Scenario.statement1) with 1. lia. }
  assert (H2 : drv_Query pg (clientId_of Scenario.statement1) Scenario.busy
               = Ok (Ok <$> (row_of <$>
                   Ledger.getRecentTransactions (store Scenario.busy) 1 10))).
  { vm_compute. reflexivity. }
  assert (H3 : drv_QueryRow pg (clientId_of Scenario.statement1) Scenario.busy
               = Ok (1000, 78)).
  { vm_compute. reflexivity. }
  assert (H4 : Time_MarshalJSON_ok (drv_Now pg Scenario.busy) = true).
  { vm_compute. reflexivity. }
  rewrite (statement_shows_what_was_read pg Scenario.busy Scenario.statement1
             _ 1000 78 H1 H2 H3 H4).
  - vm_compute. reflexivity.
  - set (l := row_of <$> _). vm_compute in l. subst l. repeat constructor.
Defined.

(** X5: the failures of a statement, in the order the handler meets them.
    For a client id in 1..5: a failing query of the transactions is answered
    422; if the query succeeded, a failing read of the balance is answered
    500, whatever the rows are; if both succeeded, a row that does not scan is
    answered 400. *)
Theorem statement_failures {S} (d : Driver S) (s : S) (c : Ctx) :
  1 <= clientId_of c <= 5 →
  (∀ e, drv_Query d (clientId_of c) s = Err e →
     (run d (handleTransactionLog c) s).1 = SendStatus StatusUnprocessableEntity)
  ∧ (∀ rows e, drv_Query d (clientId_of c) s = Ok rows →
       drv_QueryRow d (clientId_of c) s = Err e →
       (run d (handleTransactionLog c) s).1 = SendStatus StatusInternalServerError)
  ∧ (∀ rows row e, drv_Query d (clientId_of c) s = Ok rows →
       drv_QueryRow d (clientId_of c) s = Ok row →
       scan_rows rows [] = Err e →
       (run d (handleTransactionLog c) s).1 = SendStatus StatusBadRequest).
Proof.
  intros Hid. rewrite (run_handleTransactionLog_eq d s c Hid). cbn [fst]. repeat split.
  - intros e ->. done.
  - intros rows e -> ->. done.
  - intros rows [limite saldo] e -> -> ->. done.
Qed.

Lemma statement_failures_witness :
  (run pg (handleTransactionLog Scenario.statement1) Scenario.db_down).1
  = SendStatus StatusUnprocessableEntity.
Proof.
  refine (proj1 (statement_failures pg Scenario.db_down Scenario.statement1 _) unavailable _).
  - change (clientId_of Scenario.statement1) with 1. lia.
  - reflexivity.
Defined.

(** ** The loop over the rows *)

Lemma scan_rows_acc rows : ∀ acc,
  scan_rows rows acc =
  match scan_rows rows [] with
  | Ok l => Ok (acc ++ l)
  | Err e => Err e
  end.
Proof.
  induction rows as [|[t|e] rows IH]; intros acc; cbn.
  - by rewrite app_nil_r.
  - rewrite (IH (acc ++ [t])), (IH [t]).
    destruct (scan_rows rows []); [|done]. by rewrite <- app_assoc.
  - done.
Qed.

(** X6: the loop over the rows yields a list exactly when every row scans,
    and the list is then the rows, none lost, none twice, in their order; it
    fails exactly when some row does not scan, with the error of the first
    such row, and the rows after it are not looked at. *)
Theorem scan_rows_all_or_first_error (rows : list (result Transacao)) :
  (∀ l, scan_rows rows [] = Ok l ↔ rows = Ok <$> l)
  ∧ (∀ e, scan_rows rows [] = Err e
          ↔ ∃ scanned rest, rows = (Ok <$> scanned) ++ Err e :: rest).
Proof.
  induction rows as [|[t|e0] rows [IHok IHerr]].
  - split.
    + intros l. cbn. split; [by intros [= <-]|]. by destruct l.
    + intros e. split; [done|]. intros (scanned & rest & H). by destruct scanned.
  - split.
    + intros l. cbn. rewrite scan_rows_acc. split.
      * destruct (scan_rows rows []) as [l'|] eqn:Hs; [|done].
        intros [= <-]. cbn. f_equal. by apply IHok.
      * destruct l as [|t' l]; [done|]. intros [= <- Hrows].
        apply IHok in Hrows. by rewrite Hrows.
    + intros e. cbn. rewrite scan_rows_acc. split.
      * destruct (scan_rows rows []) as [l'|e'] eqn:Hs; [done|].
        intros [= <-]. destruct (proj1 (IHerr e') eq_refl) as (scanned & rest & ->).
        by exists (t :: scanned), rest.
      * intros (scanned & rest & H). destruct scanned as [|t' scanned]; [done|].
        cbn in H. injection H as <- Hrows.
        assert (Hs : scan_rows rows [] = Err e) by (apply IHerr; eauto).
        by rewrite Hs.
  - split.
    + intros l. cbn. split; [done|]. by destruct l.
    + intros e. cbn. split.
      * intros [= <-]. by exists [], rows.
      * intros (scanned & rest & H). destruct scanned; [|done]. by injection H as ->.
Qed.

Lemma scan_rows_all_or_first_error_witness :
  scan_rows [Ok (row_of (Scenario.tx 1 Ledger.Credit 5)); Err ErrScan;
             Ok (row_of (Scenario.tx 2 Ledger.Credit 9))] []
  = Err ErrScan.
Proof.
  apply scan_rows_all_or_first_error.
  exists [row_of (Scenario.tx 1 Ledger.Credit 5)],
         [Ok (row_of (Scenario.tx 2 Ledger.Credit 9))].
  reflexivity.
Defined.
